(** * Binary Pulse Encoder (app.js): text to bits, bits to line-code waveform

    A shallow embedding of the computational part of [app.js]:
    - [charToBinary] / [stringToBinary]: text to a string of '0'/'1';
    - [drawWaveform] and the five per-bit drawing functions [drawNRZ],
      [drawRZ], [drawManchester], [drawAMI], [drawCMI], which issue
      [moveTo]/[lineTo] calls on a canvas 2-D context.

    JavaScript strings are sequences of UTF-16 code units; they are modelled
    as lists of code units.  The canvas context is modelled by the path it
    accumulates between [beginPath] and [stroke]: the list of [moveTo] and
    [lineTo] calls in the order they are issued.  The grid, the labels and
    the colours touch neither the path nor the loop state and are left out. *)

From Stdlib Require Import String Ascii Bool ZArith NArith PArith List Lia.
From Stdlib Require Import DecimalString.
Import ListNotations.

(* ================================================================= *)
(** ** JavaScript strings *)

(** A UTF-16 code unit (0 .. 65535). *)
Definition code_unit := N.

(** A JavaScript string: its code units, in order. *)
Definition jsstring := list code_unit.

(** String literals of the source, as code units. *)
Definition js (s : string) : jsstring :=
  map N_of_ascii (list_ascii_of_string s).

(** The one-character strings ['0'] and ['1'] the drawing code compares
    [binary[i]] with. *)
Definition c0 : code_unit := 48%N.
Definition c1 : code_unit := 49%N.

(** [===] on strings. *)
Fixpoint str_eqb (s t : jsstring) : bool :=
  match s, t with
  | [], [] => true
  | a :: s', b :: t' => N.eqb a b && str_eqb s' t'
  | _, _ => false
  end.

Definition is_high_surrogate (u : code_unit) : bool :=
  (N.leb 55296 u && N.leb u 56319)%N.

Definition is_low_surrogate (u : code_unit) : bool :=
  (N.leb 56320 u && N.leb u 57343)%N.

(** [Array.from(str)]: the string iterator yields one string per code
    point; a high surrogate followed by a low surrogate is one element of
    two code units, every other code unit is an element of its own. *)
Fixpoint Array_from (str : jsstring) : list jsstring :=
  match str with
  | [] => []
  | u :: rest =>
      match rest with
      | v :: rest' =>
          if is_high_surrogate u && is_low_surrogate v
          then [u; v] :: Array_from rest'
          else [u] :: Array_from rest
      | [] => [[u]]
      end
  end.

(** [s.charCodeAt(0)]: the first code unit, [NaN] ([None]) on the empty
    string. *)
Definition charCodeAt0 (s : jsstring) : option N :=
  match s with
  | [] => None
  | u :: _ => Some u
  end.

(** [s.codePointAt(0)], used to speak of the code point of an element of
    [Array.from(str)]. *)
Definition codePointAt0 (s : jsstring) : option N :=
  match s with
  | [] => None
  | u :: rest =>
      match rest with
      | v :: _ =>
          if is_high_surrogate u && is_low_surrogate v
          then Some (65536 + (u - 55296) * 1024 + (v - 56320))%N
          else Some u
      | [] => Some u
      end
  end.

(** Binary digits of a positive number, most significant first, in front
    of [acc]. *)
Fixpoint pos_digits (p : positive) (acc : jsstring) : jsstring :=
  match p with
  | xH => c1 :: acc
  | xO p' => pos_digits p' (c0 :: acc)
  | xI p' => pos_digits p' (c1 :: acc)
  end.

(** [n.toString(2)] for a non-negative integer, and for [NaN]. *)
Definition toString2 (n : option N) : jsstring :=
  match n with
  | None => js "NaN"
  | Some N0 => [c0]
  | Some (Npos p) => pos_digits p []
  end.

(** [s.padStart(targetLength, padString)]: nothing is added (and nothing is
    removed) when [s] is long enough or the filler is empty; otherwise the
    filler is repeated and cut to the missing length. *)
Definition padStart (targetLength : nat) (padString : jsstring) (s : jsstring)
  : jsstring :=
  if (targetLength <=? length s)%nat then s
  else match padString with
       | [] => s
       | _ => let fillLen := (targetLength - length s)%nat in
              firstn fillLen (concat (repeat padString fillLen)) ++ s
       end.

(** [charToBinary], app.js lines 138-141. *)
Definition charToBinary (char : jsstring) : jsstring :=
  let code := charCodeAt0 char in
  padStart 8 (js "0") (toString2 code).

(** [stringToBinary], app.js lines 146-148; [join('')] is [concat]. *)
Definition stringToBinary (str : jsstring) : jsstring :=
  concat (map (fun char => charToBinary char) (Array_from str)).

(* ================================================================= *)
(** ** Canvas path and drawing configuration *)

Local Open Scope Z_scope.

(** A call recorded on the current path of the 2-D context. *)
Inductive path_op : Type :=
| MoveTo (x y : Z)
| LineTo (x y : Z).

(** The context, as far as the waveform is concerned: the current path,
    oldest call first.  [ctx.beginPath()] leaves it empty. *)
Definition context := list path_op.

Definition moveTo (ctx : context) (x y : Z) : context := ctx ++ [MoveTo x y].
Definition lineTo (ctx : context) (x y : Z) : context := ctx ++ [LineTo x y].

(** [currentZoom] starts at 1 and moves in steps of 0.25 between
    [MIN_ZOOM = 0.5] and [MAX_ZOOM = 2] (app.js lines 29-31, 561-577), so
    it takes seven values.  All of them, and every coordinate computed
    from them below, are integers that doubles represent exactly; they are
    carried as [Z], the zoom as a number of quarters. *)
Inductive zoom : Type := Z050 | Z075 | Z100 | Z125 | Z150 | Z175 | Z200.

Definition quarters (z : zoom) : Z :=
  match z with
  | Z050 => 2 | Z075 => 3 | Z100 => 4 | Z125 => 5
  | Z150 => 6 | Z175 => 7 | Z200 => 8
  end.

(** The zoom-in and zoom-out handlers. *)
Definition zoomIn (z : zoom) : zoom :=
  match z with
  | Z050 => Z075 | Z075 => Z100 | Z100 => Z125 | Z125 => Z150
  | Z150 => Z175 | Z175 => Z200 | Z200 => Z200
  end.

Definition zoomOut (z : zoom) : zoom :=
  match z with
  | Z050 => Z050 | Z075 => Z050 | Z100 => Z075 | Z125 => Z100
  | Z150 => Z125 | Z175 => Z150 | Z200 => Z175
  end.

(** Configuration of [drawWaveform], app.js lines 183-199. *)
Definition bitWidth (currentZoom : zoom) : Z := 40 * quarters currentZoom / 4.
Definition cellSize (currentZoom : zoom) : Z := 20 * quarters currentZoom / 4.
Definition padding : Z := 80.
Definition topPadding : Z := 60.

Definition voltageHigh (z : zoom) : Z := topPadding + cellSize z.
Definition voltageZero (z : zoom) : Z := topPadding + cellSize z * 3.
Definition voltageLow (z : zoom) : Z := topPadding + cellSize z * 5.

(* ================================================================= *)
(** ** The per-bit drawing functions, app.js lines 353-469

    [bit] is the code unit of the one-character string [binary[i]];
    [bit === '1'] is [N.eqb bit c1].  [width / 2] is exact, [width] being
    even at every zoom. *)

Definition drawNRZ (ctx : context) (x width : Z) (bit : code_unit)
  (high low lastY index : Z) : context :=
  let y := if N.eqb bit c1 then high else low in
  let ctx :=
    if index =? 0 then moveTo ctx x y
    else if negb (lastY =? y) then lineTo (lineTo ctx x lastY) x y
    else ctx in
  lineTo ctx (x + width) y.

Definition drawRZ (ctx : context) (x width : Z) (bit : code_unit)
  (high zero low lastY index : Z) : context :=
  if N.eqb bit c1 then
    let ctx :=
      if index =? 0 then moveTo ctx x high
      else let ctx := lineTo ctx x lastY in
           if negb (lastY =? high) then lineTo ctx x high else ctx in
    let ctx := lineTo ctx (x + width / 2) high in
    let ctx := lineTo ctx (x + width / 2) zero in
    lineTo ctx (x + width) zero
  else
    let ctx :=
      if index =? 0 then moveTo ctx x low
      else let ctx := lineTo ctx x lastY in
           if negb (lastY =? low) then lineTo ctx x low else ctx in
    let ctx := lineTo ctx (x + width / 2) low in
    let ctx := lineTo ctx (x + width / 2) zero in
    lineTo ctx (x + width) zero.

Definition drawManchester (ctx : context) (x width : Z) (bit : code_unit)
  (high low lastY index : Z) : context :=
  if N.eqb bit c1 then
    let ctx :=
      if index =? 0 then moveTo ctx x low
      else if negb (lastY =? low) then lineTo (lineTo ctx x lastY) x low
      else ctx in
    let ctx := lineTo ctx (x + width / 2) low in
    let ctx := lineTo ctx (x + width / 2) high in
    lineTo ctx (x + width) high
  else
    let ctx :=
      if index =? 0 then moveTo ctx x high
      else if negb (lastY =? high) then lineTo (lineTo ctx x lastY) x high
      else ctx in
    let ctx := lineTo ctx (x + width / 2) high in
    let ctx := lineTo ctx (x + width / 2) low in
    lineTo ctx (x + width) low.

(** The object [{ lastY, polarity }] returned by [drawAMI] and [drawCMI]. *)
Record draw_result : Type := { lastY : Z; polarity : Z }.

Definition drawAMI (ctx : context) (x width : Z) (bit : code_unit)
  (high zero low lastY index polarity : Z) : context * draw_result :=
  let '(newY, newPolarity) :=
    if N.eqb bit c0 then (zero, polarity)
    else ((if polarity =? 1 then high else low), - polarity) in
  let ctx :=
    if index =? 0 then moveTo ctx x newY
    else let ctx := lineTo ctx x lastY in
         if negb (lastY =? newY) then lineTo ctx x newY else ctx in
  let ctx := lineTo ctx (x + width) newY in
  (ctx, {| lastY := newY; polarity := newPolarity |}).

Definition drawCMI (ctx : context) (x width : Z) (bit : code_unit)
  (high low lastY index polarity : Z) : context * draw_result :=
  if N.eqb bit c1 then
    let y := if polarity =? 1 then high else low in
    let newPolarity := - polarity in
    let ctx :=
      if index =? 0 then moveTo ctx x y
      else let ctx := lineTo ctx x lastY in
           if negb (lastY =? y) then lineTo ctx x y else ctx in
    let ctx := lineTo ctx (x + width) y in
    (ctx, {| lastY := y; polarity := newPolarity |})
  else
    let ctx :=
      if index =? 0 then moveTo ctx x low
      else let ctx := lineTo ctx x lastY in
           if negb (lastY =? low) then lineTo ctx x low else ctx in
    let ctx := lineTo ctx (x + width / 2) low in
    let ctx := lineTo ctx (x + width / 2) high in
    let ctx := lineTo ctx (x + width) high in
    (ctx, {| lastY := high; polarity := polarity |}).

(* ================================================================= *)
(** ** [drawWaveform], the signal loop, app.js lines 293-334 *)

(** The variables the loop updates: the path of [ctx] and the three
    locals [lastY], [amiPolarity], [cmiPolarity]. *)
Record loop_state : Type := {
  st_ctx : context;
  st_lastY : Z;
  st_amiPolarity : Z;
  st_cmiPolarity : Z
}.

(** State on entry to the loop: [beginPath()], [lastY = voltageZero],
    [amiPolarity = 1], [cmiPolarity = -1]. *)
Definition init_state (z : zoom) : loop_state :=
  {| st_ctx := []; st_lastY := voltageZero z;
     st_amiPolarity := 1; st_cmiPolarity := -1 |}.

(** One iteration: the [switch (encoding)], which has no [default]. *)
Definition loop_body (z : zoom) (encoding : jsstring) (i : Z)
  (bit : code_unit) (st : loop_state) : loop_state :=
  let x := padding + i * bitWidth z in
  if str_eqb encoding (js "nrz") then
    {| st_ctx := drawNRZ (st_ctx st) x (bitWidth z) bit
                   (voltageHigh z) (voltageZero z) (st_lastY st) i;
       st_lastY := if N.eqb bit c1 then voltageHigh z else voltageZero z;
       st_amiPolarity := st_amiPolarity st;
       st_cmiPolarity := st_cmiPolarity st |}
  else if str_eqb encoding (js "rz") then
    {| st_ctx := drawRZ (st_ctx st) x (bitWidth z) bit
                   (voltageHigh z) (voltageZero z) (voltageLow z)
                   (st_lastY st) i;
       st_lastY := voltageZero z;
       st_amiPolarity := st_amiPolarity st;
       st_cmiPolarity := st_cmiPolarity st |}
  else if str_eqb encoding (js "manchester") then
    {| st_ctx := drawManchester (st_ctx st) x (bitWidth z) bit
                   (voltageHigh z) (voltageLow z) (st_lastY st) i;
       st_lastY := if N.eqb bit c1 then voltageHigh z else voltageLow z;
       st_amiPolarity := st_amiPolarity st;
       st_cmiPolarity := st_cmiPolarity st |}
  else if str_eqb encoding (js "ami") then
    let '(ctx, amiResult) :=
      drawAMI (st_ctx st) x (bitWidth z) bit
        (voltageHigh z) (voltageZero z) (voltageLow z)
        (st_lastY st) i (st_amiPolarity st) in
    {| st_ctx := ctx;
       st_lastY := lastY amiResult;
       st_amiPolarity := polarity amiResult;
       st_cmiPolarity := st_cmiPolarity st |}
  else if str_eqb encoding (js "cmi") then
    let '(ctx, cmiResult) :=
      drawCMI (st_ctx st) x (bitWidth z) bit
        (voltageHigh z) (voltageZero z) (st_lastY st) i (st_cmiPolarity st) in
    {| st_ctx := ctx;
       st_lastY := lastY cmiResult;
       st_amiPolarity := st_amiPolarity st;
       st_cmiPolarity := polarity cmiResult |}
  else st.

(** [for (let i = 0; i < binary.length; i++)], entered at index [i] with
    the characters from [i] on still to be read. *)
Fixpoint waveform_loop (z : zoom) (encoding : jsstring) (i : Z)
  (binary : jsstring) (st : loop_state) : loop_state :=
  match binary with
  | [] => st
  | bit :: rest =>
      waveform_loop z encoding (i + 1) rest (loop_body z encoding i bit st)
  end.

(** The path stroked by [drawWaveform(binary, encoding)] at zoom [z]. *)
Definition drawWaveform (z : zoom) (binary encoding : jsstring) : context :=
  st_ctx (waveform_loop z encoding 0 binary (init_state z)).

(* ================================================================= *)
(** ** Vocabulary of the specification

    The specification speaks of vertices: a position in bit-width units, a
    symbolic voltage level and a pen flag.  Positions are counted here in
    half bit widths from the start of bit 0, so bit [i] spans positions
    [2*i] to [2*i+2] and its middle (bit-relative 0.5) is [2*i+1]. *)

Inductive level : Type := HIGH | ZERO | LOW.

Definition level_eqb (a b : level) : bool :=
  match a, b with
  | HIGH, HIGH | ZERO, ZERO | LOW, LOW => true
  | _, _ => false
  end.

(** The rail a level is drawn on. *)
Definition voltage (z : zoom) (l : level) : Z :=
  match l with
  | HIGH => voltageHigh z
  | ZERO => voltageZero z
  | LOW => voltageLow z
  end.

Record vertex : Type := V {
  position : Z;
  vlevel : level;
  startsNewSegment : bool
}.

(** The canvas call that draws a vertex: [moveTo] when it starts a new
    segment, [lineTo] otherwise. *)
Definition render (z : zoom) (v : vertex) : path_op :=
  let x := padding + position v * (bitWidth z / 2) in
  let y := voltage z (vlevel v) in
  if startsNewSegment v then MoveTo x y else LineTo x y.

(** The five recognized schemes and the identifier [drawWaveform] knows
    each by (the value of the selected radio button). *)
Inductive scheme : Type := NRZ | RZ | Manchester | AMI | CMI.

Definition scheme_id (s : scheme) : jsstring :=
  match s with
  | NRZ => js "nrz"
  | RZ => js "rz"
  | Manchester => js "manchester"
  | AMI => js "ami"
  | CMI => js "cmi"
  end.

(** The loop state when iteration [i] starts: the first [i] characters
    of [binary] have been drawn. *)
Definition state_before (z : zoom) (encoding binary : jsstring) (i : nat)
  : loop_state :=
  waveform_loop z encoding 0 (firstn i binary) (init_state z).

(** Where the pen is: the point of the last call on the path. *)
Definition pen (ctx : context) : option (Z * Z) :=
  match rev ctx with
  | [] => None
  | MoveTo x y :: _ | LineTo x y :: _ => Some (x, y)
  end.

(** The canvas point of position [p] at level [l]. *)
Definition point (z : zoom) (p : Z) (l : level) : Z * Z :=
  (padding + p * (bitWidth z / 2), voltage z l).

(** *** Decoding, for the round-trip law *)

(** The 8-bit, most-significant-bit-first, zero-padded binary numeral of
    a code point, as the specification words it. *)
Definition byte_bits (u : N) : jsstring :=
  map (fun k => if N.testbit u k then c1 else c0) [7; 6; 5; 4; 3; 2; 1; 0]%N.

(** Value of a binary numeral, most significant digit first. *)
Definition parse_binary (digits : jsstring) : N :=
  fold_left (fun acc d => (2 * acc + (if N.eqb d c1 then 1 else 0))%N)
    digits 0%N.

(** Standard 8-bit grouping: cut the bit string into groups of eight and
    read each as a binary numeral. *)
Fixpoint decode (bits : jsstring) : list N :=
  match bits with
  | b7 :: b6 :: b5 :: b4 :: b3 :: b2 :: b1 :: b0 :: rest =>
      parse_binary [b7; b6; b5; b4; b3; b2; b1; b0] :: decode rest
  | _ => []
  end.

(** The code units below 256, enumerated. *)
Definition bytes : list N := map N.of_nat (seq 0 256).

(** *** Completions

    [drawWaveform] contains no [throw] and calls nothing that throws on
    string arguments: every call completes normally, with the path it has
    built.  [generate] is the name the specification gives to it. *)
Inductive error : Type := InvalidInput | UnsupportedScheme.

Inductive completion : Type :=
| Returns (path : context)
| Fails (e : error).

Definition generate (z : zoom) (bits : jsstring) (schemeId : jsstring)
  : completion :=
  Returns (drawWaveform z bits schemeId).

(** *** The per-scheme rules of the specification, as a table

    For one bit: the level the bit starts at, the vertices that follow the
    bit boundary (offset from the start of the bit in half bit widths, and
    level), the level the bit ends at, and the two polarities afterwards.
    A character that is neither '0' nor '1' is entered the way the
    drawing functions take it.  The drawing functions are compared with
    this table below. *)
Record bit_rule : Type := {
  start_level : level;
  body : list (Z * level);
  end_level : level;
  next_ami : Z;
  next_cmi : Z
}.

Definition flat_rule (l : level) (ami cmi : Z) : bit_rule :=
  {| start_level := l; body := [(2, l)]; end_level := l;
     next_ami := ami; next_cmi := cmi |}.

Definition split_rule (first second : level) (ami cmi : Z) : bit_rule :=
  {| start_level := first;
     body := [(1, first); (1, second); (2, second)];
     end_level := second; next_ami := ami; next_cmi := cmi |}.

Definition spec_rule (s : scheme) (bit : code_unit) (ami cmi : Z) : bit_rule :=
  match s with
  | NRZ => flat_rule (if N.eqb bit c1 then HIGH else ZERO) ami cmi
  | RZ => split_rule (if N.eqb bit c1 then HIGH else LOW) ZERO ami cmi
  | Manchester =>
      if N.eqb bit c1 then split_rule LOW HIGH ami cmi
      else split_rule HIGH LOW ami cmi
  | AMI =>
      if N.eqb bit c0 then flat_rule ZERO ami cmi
      else flat_rule (if ami =? 1 then HIGH else LOW) (- ami) cmi
  | CMI =>
      if N.eqb bit c1 then flat_rule (if cmi =? 1 then HIGH else ZERO) ami (- cmi)
      else split_rule ZERO HIGH ami cmi
  end.

(** [drawRZ], [drawAMI] and [drawCMI] issue [lineTo(x, lastY)] at every
    bit boundary after the first; [drawNRZ] and [drawManchester] only when
    the level changes. *)
Definition touches_boundary (s : scheme) : bool :=
  match s with
  | NRZ | Manchester => false
  | RZ | AMI | CMI => true
  end.

(** Vertices at the boundary in front of bit [i], coming from level
    [last] and starting the bit at level [start]. *)
Definition boundary (touch : bool) (i : Z) (last start : level) : list vertex :=
  if i =? 0 then [V 0 start true]
  else if level_eqb last start then
         (if touch then [V (2 * i) last false] else [])
       else [V (2 * i) last false; V (2 * i) start false].

(** Vertices of the body of bit [i]. *)
Definition body_vertices (i : Z) (b : list (Z * level)) : list vertex :=
  map (fun ol => V (2 * i + fst ol) (snd ol) false) b.

(** What the loop maintains, for a recognized scheme, once [i] bits are
    drawn: [lastY] is the rail of a level, both polarities are +1 or -1,
    the path is a rendered vertex list, empty before the first bit and
    afterwards one pen-up vertex followed by pen-down vertices, the last
    of them at the coming bit boundary on the [lastY] rail. *)
Definition wf_state (z : zoom) (i : nat) (st : loop_state) : Prop :=
  exists (last : level) (vs : list vertex),
    st_lastY st = voltage z last /\
    st_ctx st = map (render z) vs /\
    (st_amiPolarity st = 1 \/ st_amiPolarity st = -1) /\
    (st_cmiPolarity st = 1 \/ st_cmiPolarity st = -1) /\
    match i with
    | O => vs = []
    | S _ =>
        (exists l tail,
            vs = V 0 l true :: tail /\
            Forall (fun v => startsNewSegment v = false) tail) /\
        (exists front f, vs = front ++ [V (2 * Z.of_nat i) last f])
    end.

(** How bit [i] of [binary] is drawn under [encoding]: the previous bit
    ended at level [last] (the value of [lastY] when iteration [i]
    starts); iteration [i] adds to the path the boundary vertices from
    [last] to [start] and then the body [b]; after the boundary vertices
    the pen is at the start of the bit, at level [start]; and what has
    been drawn up to the end of bit [i] is the beginning of the finished
    path. *)
Definition draws_bit (z : zoom) (encoding binary : jsstring) (i : nat)
  (touch : bool) (last start : level) (b : list (Z * level)) : Prop :=
  let before := st_ctx (state_before z encoding binary i) in
  let after := st_ctx (state_before z encoding binary (S i)) in
  let join := map (render z) (boundary touch (Z.of_nat i) last start) in
  st_lastY (state_before z encoding binary i) = voltage z last /\
  after = before ++ join ++ map (render z) (body_vertices (Z.of_nat i) b) /\
  pen (before ++ join) = Some (point z (2 * Z.of_nat i) start) /\
  exists rest, drawWaveform z binary encoding = after ++ rest.

(** Bit [i] is held at level [l] for the whole bit. *)
Definition flat_bit (z : zoom) (encoding binary : jsstring) (i : nat)
  (touch : bool) (l : level) : Prop :=
  exists last, draws_bit z encoding binary i touch last l [(2, l)].

(** Bit [i] is at level [a] on its first half and at level [b] on its
    second half, with the transition at its middle. *)
Definition split_bit (z : zoom) (encoding binary : jsstring) (i : nat)
  (touch : bool) (a b : level) : Prop :=
  exists last,
    draws_bit z encoding binary i touch last a [(1, a); (1, b); (2, b)].

(* ================================================================= *)
(** ** The rest of [drawWaveform] and of the page *)

(** Canvas size, app.js lines 190-191. *)
Definition canvasWidth (z : zoom) (binary : jsstring) : Z :=
  Z.max 800 (Z.of_nat (length binary) * bitWidth z + padding * 2).

Definition canvasHeight (z : zoom) : Z := 280 * quarters z / 4.

(** Coordinates of a path call. *)
Definition op_x (op : path_op) : Z :=
  match op with MoveTo x _ | LineTo x _ => x end.

Definition op_y (op : path_op) : Z :=
  match op with MoveTo _ y | LineTo _ y => y end.

(** A [ctx.fillText(text, x, y)] call. *)
Record fillText_call : Type := {
  ft_text : jsstring;
  ft_x : Z;
  ft_y : Z
}.

(** The template literal [`${i}`] for a non-negative integer: its decimal
    numeral. *)
Definition decimal (i : N) : jsstring :=
  js (NilEmpty.string_of_uint (N.to_uint i)).

(** The bit position markers, app.js lines 279-285: the loop entered at
    index [i], with the characters from [i] on still to be visited. *)
Fixpoint marker_loop (z : zoom) (i : N) (binary : jsstring)
  : list fillText_call :=
  match binary with
  | [] => []
  | _ :: rest =>
      let x := padding + Z.of_N i * bitWidth z + bitWidth z / 2 in
      let calls := marker_loop z (i + 1) rest in
      if N.eqb (N.modulo i 8) 0
      then {| ft_text := decimal i; ft_x := x; ft_y := canvasHeight z - 15 |}
           :: calls
      else calls
  end.

Definition positionMarkers (z : zoom) (binary : jsstring)
  : list fillText_call :=
  marker_loop z 0 binary.

(** An item of the character breakdown built by [updateBinaryDisplay],
    app.js lines 484-496: the two strings interpolated into the item. *)
Record char_item : Type := {
  char_label : jsstring;
  char_binary : jsstring
}.

(** The breakdown loop runs over [name[i]], the code units of the name. *)
Definition charBreakdown (name : jsstring) : list char_item :=
  map (fun u =>
         let char := [u] in
         let charBin := charToBinary char in
         let displayChar :=
           if str_eqb char (js " ") then js "(space)" else char in
         {| char_label := displayChar; char_binary := charBin |})
    name.

(** The zoom buttons, app.js lines 561-577, on the zoom counted in
    quarters: [MIN_ZOOM = 0.5] is 2, [MAX_ZOOM = 2] is 8, a step of 0.25
    is 1, and [currentZoom] starts at 4. *)
Definition MIN_ZOOM : Z := 2.
Definition MAX_ZOOM : Z := 8.

Definition zoomInClick (currentZoom : Z) : Z :=
  if currentZoom <? MAX_ZOOM then Z.min MAX_ZOOM (currentZoom + 1)
  else currentZoom.

Definition zoomOutClick (currentZoom : Z) : Z :=
  if currentZoom >? MIN_ZOOM then Z.max MIN_ZOOM (currentZoom - 1)
  else currentZoom.

Inductive zoom_button : Type := ZoomInBtn | ZoomOutBtn.

Definition zoom_click (currentZoom : Z) (b : zoom_button) : Z :=
  match b with
  | ZoomInBtn => zoomInClick currentZoom
  | ZoomOutBtn => zoomOutClick currentZoom
  end.

(** [currentZoom] after a sequence of clicks on a freshly loaded page. *)
Definition zoom_after (clicks : list zoom_button) : Z :=
  fold_left zoom_click clicks 4.

(** A character of a bit string. *)
Definition is_bit (b : code_unit) : Prop := b = c0 \/ b = c1.

(** The segments a path strokes: each [lineTo] draws from the point
    the path has reached, [moveTo] draws nothing.  [strokes_from p] is
    for a path that continues from the point [p]. *)
Fixpoint strokes_from (p : Z * Z) (ctx : context)
  : list ((Z * Z) * (Z * Z)) :=
  match ctx with
  | [] => []
  | MoveTo x y :: rest => strokes_from (x, y) rest
  | LineTo x y :: rest => (p, (x, y)) :: strokes_from (x, y) rest
  end.

(** On an empty path the first call, whichever it is, only sets the
    point. *)
Definition strokes (ctx : context) : list ((Z * Z) * (Z * Z)) :=
  match ctx with
  | [] => []
  | MoveTo x y :: rest | LineTo x y :: rest => strokes_from (x, y) rest
  end.

(** The point a path continued from [p] ends at. *)
Fixpoint path_end (p : Z * Z) (ctx : context) : Z * Z :=
  match ctx with
  | [] => p
  | MoveTo x y :: rest | LineTo x y :: rest => path_end (x, y) rest
  end.

(** A stroke that stays at height [y] from some x to x plus one bit
    width. *)
Definition holds_rail (z : zoom) (y : Z) (s : (Z * Z) * (Z * Z)) : bool :=
  (snd (fst s) =? y) && (snd (snd s) =? y)
  && (fst (snd s) =? fst (fst s) + bitWidth z).

(** Number of strokes of a path that hold the height [y] over one bit
    width. *)
Definition bits_held_at (z : zoom) (y : Z) (ctx : context) : nat :=
  length (filter (holds_rail z y) (strokes ctx)).

(** The same on vertices. *)
Fixpoint vstrokes_from (px : Z) (pl : level) (vs : list vertex)
  : list ((Z * level) * (Z * level)) :=
  match vs with
  | [] => []
  | v :: rest =>
      if startsNewSegment v
      then vstrokes_from (position v) (vlevel v) rest
      else ((px, pl), (position v, vlevel v))
             :: vstrokes_from (position v) (vlevel v) rest
  end.

Definition vholds (t : level) (s : (Z * level) * (Z * level)) : bool :=
  level_eqb (snd (fst s)) t && level_eqb (snd (snd s)) t
  && (fst (snd s) =? fst (fst s) + 2).

(** Starting from position [px] and level [pl], every vertex of [vs]
    keeps the position or the level of the point before it. *)
Fixpoint chain (px : Z) (pl : level) (vs : list vertex) : Prop :=
  match vs with
  | [] => True
  | v :: rest =>
      (px = position v \/ pl = vlevel v) /\
      chain (position v) (vlevel v) rest
  end.

(** Where such a chain ends. *)
Fixpoint chain_end (px : Z) (pl : level) (vs : list vertex) : Z * level :=
  match vs with
  | [] => (px, pl)
  | v :: rest => chain_end (position v) (vlevel v) rest
  end.

(** The vertex list the table prescribes for a bit string: the rules of
    [spec_rule] applied bit by bit from index [i], level [last] and the
    two polarities. *)
Fixpoint spec_loop (s : scheme) (i : Z) (binary : jsstring)
  (last : level) (ami cmi : Z) : list vertex :=
  match binary with
  | [] => []
  | bit :: rest =>
      let r := spec_rule s bit ami cmi in
      boundary (touches_boundary s) i last (start_level r)
      ++ body_vertices i (body r)
      ++ spec_loop s (i + 1) rest (end_level r) (next_ami r) (next_cmi r)
  end.

Definition spec_vertices (s : scheme) (binary : jsstring) : list vertex :=
  spec_loop s 0 binary ZERO 1 (-1).

(* ================================================================= *)
(** * Text to bits *)

Section TextToBits.

Lemma str_eqb_eq (s t : jsstring) : str_eqb s t = true <-> s = t.
Proof.
  revert t; induction s as [|a s IH]; intros [|b t]; simpl;
    try (split; [discriminate | congruence]); try tauto.
  rewrite andb_true_iff, N.eqb_eq, IH.
  split; [intros [-> ->]; reflexivity | intros E; inversion E; auto].
Qed.

Lemma in_bytes (u : N) : (u < 256)%N -> In u bytes.
Proof.
  intros Hu. unfold bytes.
  rewrite <- (N2Nat.id u). apply in_map, in_seq. lia.
Qed.

Lemma charToBinary_byte (u : N) :
  (u < 256)%N -> charToBinary [u] = byte_bits u.
Proof.
  intros Hu. apply str_eqb_eq.
  assert (H : forallb (fun n => str_eqb (charToBinary [n]) (byte_bits n))
                bytes = true) by (vm_compute; reflexivity).
  rewrite forallb_forall in H. apply H, in_bytes, Hu.
Qed.

Lemma parse_byte_bits (u : N) :
  (u < 256)%N -> parse_binary (byte_bits u) = u.
Proof.
  intros Hu. apply N.eqb_eq.
  assert (H : forallb (fun n => N.eqb (parse_binary (byte_bits n)) n)
                bytes = true) by (vm_compute; reflexivity).
  rewrite forallb_forall in H. apply H, in_bytes, Hu.
Qed.

(** Without a high surrogate, [Array.from] splits a string into its code
    units. *)
Lemma Array_from_bmp (str : jsstring) :
  Forall (fun u => (u < 55296)%N) str ->
  Array_from str = map (fun u => [u]) str.
Proof.
  induction 1 as [|u rest Hu Hrest IH]; [reflexivity|].
  cbn [Array_from map]. destruct rest as [|v rest'].
  - reflexivity.
  - replace (is_high_surrogate u) with false.
    + cbn [andb]. now rewrite IH.
    + unfold is_high_surrogate. symmetry. apply andb_false_iff. left.
      apply N.leb_gt, Hu.
Qed.

Lemma stringToBinary_bytes (str : jsstring) :
  Forall (fun u => (u < 256)%N) str ->
  stringToBinary str = concat (map byte_bits str).
Proof.
  intros H. unfold stringToBinary.
  rewrite Array_from_bmp
    by (eapply Forall_impl; [|exact H]; cbn; intros; lia).
  rewrite map_map. f_equal.
  induction H as [|u rest Hu _ IH]; [reflexivity|].
  cbn [map]. now rewrite charToBinary_byte, IH.
Qed.

Lemma decode_bytes (str : jsstring) :
  Forall (fun u => (u < 256)%N) str ->
  decode (concat (map byte_bits str)) = str.
Proof.
  induction 1 as [|u rest Hu _ IH]; [reflexivity|].
  cbn [map concat].
  change (byte_bits u ++ concat (map byte_bits rest)) with
    (let b k := if N.testbit u k then c1 else c0 in
     b 7%N :: b 6%N :: b 5%N :: b 4%N :: b 3%N :: b 2%N :: b 1%N :: b 0%N
       :: concat (map byte_bits rest)).
  cbv zeta. cbn [decode]. rewrite IH. f_equal.
  exact (parse_byte_bits u Hu).
Qed.

Lemma length_concat_byte_bits (str : jsstring) :
  length (concat (map byte_bits str)) = (8 * length str)%nat.
Proof.
  induction str as [|u rest IH]; [reflexivity|].
  cbn [map concat]. rewrite length_app, IH. cbn [length byte_bits map]. lia.
Qed.

(** Length of [toString(2)]: the number of binary digits. *)
Lemma length_pos_digits (p : positive) (acc : jsstring) :
  length (pos_digits p acc) = (Pos.size_nat p + length acc)%nat.
Proof.
  revert acc; induction p as [p IH|p IH|]; intros acc; cbn [pos_digits Pos.size_nat].
  - rewrite IH. cbn [length]. lia.
  - rewrite IH. cbn [length]. lia.
  - reflexivity.
Qed.

Lemma size_nat_bound (p : positive) (n : nat) :
  (Pos.size_nat p <= n)%nat -> (Z.pos p < 2 ^ Z.of_nat n)%Z.
Proof.
  revert n; induction p as [p IH|p IH|]; intros n; cbn [Pos.size_nat]; intros Hn.
  - destruct n as [|n]; [lia|]. rewrite Nat2Z.inj_succ, Z.pow_succ_r by lia.
    specialize (IH n ltac:(lia)). lia.
  - destruct n as [|n]; [lia|]. rewrite Nat2Z.inj_succ, Z.pow_succ_r by lia.
    specialize (IH n ltac:(lia)). lia.
  - destruct n as [|n]; [lia|]. rewrite Nat2Z.inj_succ, Z.pow_succ_r by lia.
    assert (0 < 2 ^ Z.of_nat n)%Z by (apply Z.pow_pos_nonneg; lia). lia.
Qed.

(** [padStart] never shortens. *)
Lemma length_padStart (n : nat) (pad s : jsstring) :
  (length s <= length (padStart n pad s))%nat.
Proof.
  unfold padStart. destruct (n <=? length s)%nat; [lia|].
  destruct pad; [lia|]. rewrite length_app. lia.
Qed.

Lemma padStart_long (n : nat) (pad s : jsstring) :
  (n <= length s)%nat -> padStart n pad s = s.
Proof.
  intros H. unfold padStart. now apply Nat.leb_le in H as ->.
Qed.

(** With the one-character filler ['0'] the result has at least the
    target length. *)
Lemma length_padStart_zero (n : nat) (s : jsstring) :
  (n <= length (padStart n (js "0") s))%nat.
Proof.
  unfold padStart. destruct (Nat.leb_spec n (length s)) as [H|H]; [exact H|].
  cbn [js list_ascii_of_string map].
  rewrite length_app, length_firstn.
  set (k := (n - length s)%nat).
  assert (E : length (concat (repeat [N_of_ascii "0"] k)) = k).
  { clearbody k. clear. induction k as [|k IHk]; [reflexivity|].
    cbn [repeat concat app length]. now rewrite IHk. }
  unfold jsstring, code_unit in *. rewrite E. lia.
Qed.

Lemma length_charToBinary_ge (char : jsstring) :
  (8 <= length (charToBinary char))%nat.
Proof. apply length_padStart_zero. Qed.

Lemma length_toString2_wide (u : N) :
  (255 < u)%N -> (8 < length (toString2 (Some u)))%nat.
Proof.
  intros Hu. destruct u as [|p]; [lia|]. cbn [toString2].
  rewrite length_pos_digits. cbn [length].
  destruct (Nat.leb_spec (Pos.size_nat p) 8) as [H|H]; [|lia].
  apply size_nat_bound in H. change (2 ^ Z.of_nat 8)%Z with 256%Z in H. lia.
Qed.

Lemma charToBinary_wide (u : N) (rest : jsstring) :
  (255 < u)%N -> charToBinary (u :: rest) = toString2 (Some u).
Proof.
  intros Hu. unfold charToBinary. cbn [charCodeAt0].
  apply padStart_long. pose proof (length_toString2_wide u Hu). lia.
Qed.

Lemma codePoint_wide (char : jsstring) (cp : N) :
  codePointAt0 char = Some cp -> (255 < cp)%N ->
  exists u rest, char = u :: rest /\ (255 < u)%N.
Proof.
  destruct char as [|u [|v rest]]; cbn [codePointAt0]; try discriminate.
  - intros [= <-] H. eauto.
  - destruct (is_high_surrogate u) eqn:Eh; cbn [andb].
    + intros _ _. exists u, (v :: rest). split; [reflexivity|].
      unfold is_high_surrogate in Eh. apply andb_true_iff in Eh as [Eh _].
      apply N.leb_le in Eh. lia.
    + intros [= <-] H. eauto.
Qed.

Lemma length_stringToBinary_ge (chars : list jsstring) :
  (8 * length chars <= length (concat (map charToBinary chars)))%nat.
Proof.
  induction chars as [|c chars IH]; [cbn; lia|].
  cbn [map concat length]. rewrite length_app.
  pose proof (length_charToBinary_ge c). lia.
Qed.

Lemma length_stringToBinary_gt (chars : list jsstring) (char : jsstring) :
  In char chars -> (8 < length (charToBinary char))%nat ->
  (8 * length chars < length (concat (map charToBinary chars)))%nat.
Proof.
  induction chars as [|c chars IH]; [intros []|].
  intros [->|Hin] Hlen; cbn [map concat length]; rewrite length_app.
  - pose proof (length_stringToBinary_ge chars). lia.
  - specialize (IH Hin Hlen). pose proof (length_charToBinary_ge c). lia.
Qed.

End TextToBits.

(* ================================================================= *)
(** * The waveform loop *)

Section Geometry.

Variable z : zoom.

Lemma bitWidth_eq : bitWidth z = 2 * (bitWidth z / 2).
Proof. destruct z; reflexivity. Qed.

Lemma half_width_pos : 0 < bitWidth z / 2.
Proof. destruct z; reflexivity. Qed.

Lemma level_eqb_eq (a b : level) : level_eqb a b = true <-> a = b.
Proof. destruct a, b; simpl; split; congruence. Qed.

(** The three rails are distinct: comparing [lastY] with a rail compares
    levels. *)
Lemma voltage_eqb (a b : level) :
  (voltage z a =? voltage z b) = level_eqb a b.
Proof. destruct z, a, b; reflexivity. Qed.

Lemma voltage_inj (a b : level) : voltage z a = voltage z b -> a = b.
Proof.
  intros H. apply level_eqb_eq. rewrite <- voltage_eqb. now apply Z.eqb_eq.
Qed.

(** A rendered vertex determines the vertex. *)
Lemma render_inj (v w : vertex) : render z v = render z w -> v = w.
Proof.
  destruct v as [p l f], w as [q m g]. unfold render.
  cbn [position vlevel startsNewSegment].
  pose proof half_width_pos as Hh.
  set (xp := padding + p * (bitWidth z / 2)).
  set (xq := padding + q * (bitWidth z / 2)).
  assert (Hx : xp = xq -> p = q).
  { subst xp xq. intros Ex. apply Z.add_reg_l, Z.mul_reg_r in Ex; lia. }
  clearbody xp xq.
  destruct f, g; intros E; try discriminate E; injection E as Ex Ey;
    apply voltage_inj in Ey; apply Hx in Ex; subst; reflexivity.
Qed.

End Geometry.

(** Coordinates of the source against coordinates of rendered vertices. *)
Ltac coords z :=
  let H := fresh "Hw" in
  let h := fresh "h" in
  pose proof (bitWidth_eq z) as H;
  set (h := bitWidth z / 2) in *;
  rewrite ?H; unfold padding; ring.

Ltac to_levels z :=
  change (voltageHigh z) with (voltage z HIGH) in *;
  change (voltageZero z) with (voltage z ZERO) in *;
  change (voltageLow z) with (voltage z LOW) in *.

Ltac path_eq z :=
  repeat match goal with
    | |- ?a ++ _ = ?a ++ _ => apply (f_equal (app a))
    | |- _ :: _ = _ :: _ => apply f_equal2
    | |- MoveTo _ _ = MoveTo _ _ => apply f_equal2
    | |- LineTo _ _ = LineTo _ _ => apply f_equal2
    | |- @eq Z _ _ => first [reflexivity | coords z]
    | |- _ => reflexivity
    end.

Ltac draw_cases z i last :=
  to_levels z; rewrite ?voltage_eqb;
  unfold boundary, body_vertices, flat_rule, split_rule;
  cbn [start_level body end_level map fst snd];
  destruct (Z.eqb_spec i 0) as [->|_];
  [|destruct last; cbn [level_eqb negb]];
  unfold moveTo, lineTo; rewrite <- ?app_assoc;
  cbn [app map]; unfold render;
  cbn [position vlevel startsNewSegment];
  path_eq z.

Section DrawingFunctions.

Variable z : zoom.

Lemma drawNRZ_vertices (ctx : context) (i : Z) (bit : code_unit) (last : level) :
  let r := spec_rule NRZ bit 1 1 in
  drawNRZ ctx (padding + i * bitWidth z) (bitWidth z) bit
    (voltageHigh z) (voltageZero z) (voltage z last) i
  = ctx ++ map (render z)
      (boundary false i last (start_level r) ++ body_vertices i (body r)).
Proof.
  unfold drawNRZ, spec_rule.
  destruct (N.eqb bit c1); draw_cases z i last.
Qed.

Lemma drawRZ_vertices (ctx : context) (i : Z) (bit : code_unit) (last : level) :
  let r := spec_rule RZ bit 1 1 in
  drawRZ ctx (padding + i * bitWidth z) (bitWidth z) bit
    (voltageHigh z) (voltageZero z) (voltageLow z) (voltage z last) i
  = ctx ++ map (render z)
      (boundary true i last (start_level r) ++ body_vertices i (body r)).
Proof.
  unfold drawRZ, spec_rule.
  destruct (N.eqb bit c1); draw_cases z i last.
Qed.

Lemma drawManchester_vertices (ctx : context) (i : Z) (bit : code_unit)
  (last : level) :
  let r := spec_rule Manchester bit 1 1 in
  drawManchester ctx (padding + i * bitWidth z) (bitWidth z) bit
    (voltageHigh z) (voltageLow z) (voltage z last) i
  = ctx ++ map (render z)
      (boundary false i last (start_level r) ++ body_vertices i (body r)).
Proof.
  unfold drawManchester, spec_rule.
  destruct (N.eqb bit c1); draw_cases z i last.
Qed.

Lemma drawAMI_vertices (ctx : context) (i : Z) (bit : code_unit) (last : level)
  (pol : Z) :
  let r := spec_rule AMI bit pol 1 in
  drawAMI ctx (padding + i * bitWidth z) (bitWidth z) bit
    (voltageHigh z) (voltageZero z) (voltageLow z) (voltage z last) i pol
  = (ctx ++ map (render z)
       (boundary true i last (start_level r) ++ body_vertices i (body r)),
     {| lastY := voltage z (end_level r); polarity := next_ami r |}).
Proof.
  unfold drawAMI, spec_rule.
  destruct (N.eqb bit c0); [|destruct (pol =? 1)]; cbv iota beta;
    (apply f_equal2; [|reflexivity]); draw_cases z i last.
Qed.

Lemma drawCMI_vertices (ctx : context) (i : Z) (bit : code_unit) (last : level)
  (pol : Z) :
  let r := spec_rule CMI bit 1 pol in
  drawCMI ctx (padding + i * bitWidth z) (bitWidth z) bit
    (voltageHigh z) (voltageZero z) (voltage z last) i pol
  = (ctx ++ map (render z)
       (boundary true i last (start_level r) ++ body_vertices i (body r)),
     {| lastY := voltage z (end_level r); polarity := next_cmi r |}).
Proof.
  unfold drawCMI, spec_rule.
  destruct (N.eqb bit c1); [destruct (pol =? 1)|]; cbv iota beta zeta;
    (apply f_equal2; [|reflexivity]); draw_cases z i last.
Qed.

End DrawingFunctions.

Section Loop.

Variable z : zoom.

Lemma waveform_loop_app (encoding : jsstring) (pre post : jsstring) :
  forall (i : Z) (st : loop_state),
    waveform_loop z encoding i (pre ++ post) st
    = waveform_loop z encoding (i + Z.of_nat (length pre)) post
        (waveform_loop z encoding i pre st).
Proof.
  induction pre as [|b pre IH]; intros i st.
  - cbn [app length waveform_loop Z.of_nat]. now rewrite Z.add_0_r.
  - cbn [app length waveform_loop]. rewrite IH. f_equal. lia.
Qed.

Lemma firstn_S_nth (binary : jsstring) (i : nat) (bit : code_unit) :
  nth_error binary i = Some bit ->
  firstn (S i) binary = firstn i binary ++ [bit].
Proof.
  revert i; induction binary as [|b rest IH]; intros [|i] H;
    try discriminate H.
  - injection H as ->. reflexivity.
  - change (b :: firstn (S i) rest = b :: (firstn i rest ++ [bit])).
    f_equal. apply IH, H.
Qed.

(** Iteration [i] takes the state before bit [i] to the state before bit
    [i+1]. *)
Lemma state_before_S (encoding binary : jsstring) (i : nat) (bit : code_unit) :
  nth_error binary i = Some bit ->
  state_before z encoding binary (S i)
  = loop_body z encoding (Z.of_nat i) bit (state_before z encoding binary i).
Proof.
  intros H. unfold state_before.
  rewrite (firstn_S_nth _ _ _ H), waveform_loop_app. cbn [waveform_loop].
  rewrite length_firstn, Nat.min_l; [reflexivity|].
  apply Nat.lt_le_incl, nth_error_Some. congruence.
Qed.

Lemma state_before_all (encoding binary : jsstring) :
  drawWaveform z binary encoding
  = st_ctx (state_before z encoding binary (length binary)).
Proof. unfold state_before. now rewrite firstn_all. Qed.

(** The path only grows. *)
Lemma loop_body_extends (encoding : jsstring) (i : Z) (bit : code_unit)
  (st : loop_state) :
  exists seg, st_ctx (loop_body z encoding i bit st) = st_ctx st ++ seg.
Proof.
  unfold loop_body.
  repeat match goal with
         | |- context [if ?c then _ else _] => destruct c
         end;
    cbn [st_ctx];
    unfold drawNRZ, drawRZ, drawManchester, drawAMI, drawCMI;
    repeat match goal with
           | |- context [if ?c then _ else _] => destruct c
           end;
    cbn [st_ctx fst snd]; unfold moveTo, lineTo; rewrite <- ?app_assoc;
    try (eexists; reflexivity).
  exists []. now rewrite app_nil_r.
Qed.

Lemma waveform_loop_extends (encoding binary : jsstring) :
  forall (i : Z) (st : loop_state),
  exists seg, st_ctx (waveform_loop z encoding i binary st) = st_ctx st ++ seg.
Proof.
  induction binary as [|b rest IH]; intros i st; cbn [waveform_loop].
  - exists []. now rewrite app_nil_r.
  - destruct (IH (i + 1) (loop_body z encoding i b st)) as [seg2 ->].
    destruct (loop_body_extends encoding i b st) as [seg1 ->].
    exists (seg1 ++ seg2). now rewrite app_assoc.
Qed.

(** What is drawn for the first [i] bits is the beginning of the whole
    path. *)
Lemma drawWaveform_prefix (encoding binary : jsstring) (i : nat) :
  exists after,
    drawWaveform z binary encoding
    = st_ctx (state_before z encoding binary i) ++ after.
Proof.
  unfold drawWaveform, state_before.
  replace (waveform_loop z encoding 0 binary (init_state z))
    with (waveform_loop z encoding 0 (firstn i binary ++ skipn i binary)
            (init_state z)) by now rewrite firstn_skipn.
  rewrite waveform_loop_app.
  apply waveform_loop_extends.
Qed.

(** One iteration of a recognized scheme, against the table. *)
Lemma loop_body_rule (s : scheme) (i : Z) (bit : code_unit)
  (st : loop_state) (last : level) :
  st_lastY st = voltage z last ->
  let r := spec_rule s bit (st_amiPolarity st) (st_cmiPolarity st) in
  loop_body z (scheme_id s) i bit st
  = {| st_ctx := st_ctx st ++ map (render z)
                   (boundary (touches_boundary s) i last (start_level r)
                    ++ body_vertices i (body r));
       st_lastY := voltage z (end_level r);
       st_amiPolarity := next_ami r;
       st_cmiPolarity := next_cmi r |}.
Proof.
  intros Hlast. destruct s.
  - change (loop_body z (scheme_id NRZ) i bit st) with
      {| st_ctx := drawNRZ (st_ctx st) (padding + i * bitWidth z) (bitWidth z)
                     bit (voltageHigh z) (voltageZero z) (st_lastY st) i;
         st_lastY := if N.eqb bit c1 then voltageHigh z else voltageZero z;
         st_amiPolarity := st_amiPolarity st;
         st_cmiPolarity := st_cmiPolarity st |}.
    rewrite Hlast, drawNRZ_vertices. cbn [spec_rule touches_boundary].
    destruct (N.eqb bit c1); reflexivity.
  - change (loop_body z (scheme_id RZ) i bit st) with
      {| st_ctx := drawRZ (st_ctx st) (padding + i * bitWidth z) (bitWidth z)
                     bit (voltageHigh z) (voltageZero z) (voltageLow z)
                     (st_lastY st) i;
         st_lastY := voltageZero z;
         st_amiPolarity := st_amiPolarity st;
         st_cmiPolarity := st_cmiPolarity st |}.
    rewrite Hlast, drawRZ_vertices. cbn [spec_rule touches_boundary].
    destruct (N.eqb bit c1); reflexivity.
  - change (loop_body z (scheme_id Manchester) i bit st) with
      {| st_ctx := drawManchester (st_ctx st) (padding + i * bitWidth z)
                     (bitWidth z) bit (voltageHigh z) (voltageLow z)
                     (st_lastY st) i;
         st_lastY := if N.eqb bit c1 then voltageHigh z else voltageLow z;
         st_amiPolarity := st_amiPolarity st;
         st_cmiPolarity := st_cmiPolarity st |}.
    rewrite Hlast, drawManchester_vertices. cbn [spec_rule touches_boundary].
    destruct (N.eqb bit c1); reflexivity.
  - change (loop_body z (scheme_id AMI) i bit st) with
      (let '(ctx, amiResult) :=
         drawAMI (st_ctx st) (padding + i * bitWidth z) (bitWidth z) bit
           (voltageHigh z) (voltageZero z) (voltageLow z)
           (st_lastY st) i (st_amiPolarity st) in
       {| st_ctx := ctx;
          st_lastY := lastY amiResult;
          st_amiPolarity := polarity amiResult;
          st_cmiPolarity := st_cmiPolarity st |}).
    rewrite Hlast, drawAMI_vertices. cbn [spec_rule touches_boundary lastY polarity].
    destruct (N.eqb bit c0); reflexivity.
  - change (loop_body z (scheme_id CMI) i bit st) with
      (let '(ctx, cmiResult) :=
         drawCMI (st_ctx st) (padding + i * bitWidth z) (bitWidth z) bit
           (voltageHigh z) (voltageZero z) (st_lastY st) i
           (st_cmiPolarity st) in
       {| st_ctx := ctx;
          st_lastY := lastY cmiResult;
          st_amiPolarity := st_amiPolarity st;
          st_cmiPolarity := polarity cmiResult |}).
    rewrite Hlast, drawCMI_vertices. cbn [spec_rule touches_boundary lastY polarity].
    destruct (N.eqb bit c1); reflexivity.
Qed.

End Loop.

Section Invariant.

Variable z : zoom.

Lemma pen_snoc (ctx : context) (v : vertex) :
  pen (ctx ++ [render z v]) = Some (point z (position v) (vlevel v)).
Proof.
  unfold pen. rewrite rev_app_distr. cbn [rev app]. unfold render, point.
  destruct (startsNewSegment v); reflexivity.
Qed.

Lemma pen_render_snoc (front : list vertex) (v : vertex) :
  pen (map (render z) (front ++ [v]))
  = Some (point z (position v) (vlevel v)).
Proof. rewrite map_app. apply pen_snoc. Qed.

(** The body of every rule ends at offset 2 on the rule's end level and
    stays strictly inside or at the end of the bit. *)
Lemma spec_rule_body (s : scheme) (bit : code_unit) (ami cmi : Z) :
  let r := spec_rule s bit ami cmi in
  (exists front, body r = front ++ [(2, end_level r)]) /\
  (exists q more, body r = (q, start_level r) :: more /\ 0 < q) /\
  Forall (fun ol => 0 < fst ol) (body r).
Proof.
  destruct s; cbn [spec_rule];
    repeat match goal with
           | |- context [if ?c then _ else _] => destruct c
           end;
    cbn [flat_rule split_rule body end_level start_level];
    (split; [|split]);
    try (now exists []);
    try (eexists [_; _]; reflexivity);
    try (do 2 eexists; split; [reflexivity|lia]);
    repeat constructor.
Qed.

Lemma spec_rule_polarity (s : scheme) (bit : code_unit) (ami cmi : Z) :
  let r := spec_rule s bit ami cmi in
  (ami = 1 \/ ami = -1) -> (cmi = 1 \/ cmi = -1) ->
  (next_ami r = 1 \/ next_ami r = -1) /\ (next_cmi r = 1 \/ next_cmi r = -1).
Proof.
  destruct s; cbn [spec_rule];
    repeat match goal with
           | |- context [if ?c then _ else _] => destruct c
           end;
    cbn [flat_rule split_rule next_ami next_cmi]; lia.
Qed.

Lemma boundary_flags (touch : bool) (i : nat) (last start : level) :
  Forall (fun v => startsNewSegment v = false)
    (boundary touch (Z.of_nat (S i)) last start).
Proof.
  unfold boundary. destruct (Z.eqb_spec (Z.of_nat (S i)) 0) as [E|_]; [lia|].
  destruct (level_eqb last start), touch; repeat constructor.
Qed.

Lemma body_flags (i : Z) (b : list (Z * level)) :
  Forall (fun v => startsNewSegment v = false) (body_vertices i b).
Proof.
  unfold body_vertices. apply Forall_map. apply Forall_forall. reflexivity.
Qed.

Lemma wf_init : wf_state z 0 (init_state z).
Proof.
  exists ZERO, []. cbn. repeat split; auto.
Qed.

Lemma wf_step (s : scheme) (i : nat) (bit : code_unit) (st : loop_state) :
  wf_state z i st ->
  wf_state z (S i) (loop_body z (scheme_id s) (Z.of_nat i) bit st).
Proof.
  intros (last & vs & Hlast & Hctx & Hami & Hcmi & Hshape).
  rewrite (loop_body_rule z s (Z.of_nat i) bit st last Hlast).
  set (r := spec_rule s bit (st_amiPolarity st) (st_cmiPolarity st)).
  destruct (spec_rule_body s bit (st_amiPolarity st) (st_cmiPolarity st))
    as ((front & Hbody) & _ & _).
  destruct (spec_rule_polarity s bit (st_amiPolarity st) (st_cmiPolarity st)
              Hami Hcmi) as (Hami' & Hcmi').
  fold r in Hbody, Hami', Hcmi'.
  exists (end_level r),
    (vs ++ boundary (touches_boundary s) (Z.of_nat i) last (start_level r)
        ++ body_vertices (Z.of_nat i) (body r)).
  cbn [st_ctx st_lastY st_amiPolarity st_cmiPolarity].
  split; [reflexivity|]. split; [now rewrite Hctx, <- map_app|].
  split; [exact Hami'|]. split; [exact Hcmi'|]. split.
  - destruct i as [|i].
    + subst vs. cbn [app]. unfold boundary. cbn [Z.of_nat Z.eqb app].
      do 2 eexists. split; [reflexivity|]. apply body_flags.
    + destruct Hshape as ((l & tail & -> & Htail) & _).
      cbn [app]. do 2 eexists. split; [reflexivity|].
      rewrite !Forall_app. repeat split;
        [exact Htail | apply boundary_flags | apply body_flags].
  - rewrite Hbody. unfold body_vertices. rewrite map_app. cbn [map fst snd].
    exists (vs ++ boundary (touches_boundary s) (Z.of_nat i) last (start_level r)
              ++ map (fun ol => V (2 * Z.of_nat i + fst ol) (snd ol) false) front),
      false.
    replace (2 * Z.of_nat (S i)) with (2 * Z.of_nat i + 2) by lia.
    now rewrite <- !app_assoc.
Qed.

Lemma wf_state_before (s : scheme) (binary : jsstring) (i : nat) :
  (i <= length binary)%nat ->
  wf_state z i (state_before z (scheme_id s) binary i).
Proof.
  induction i as [|i IH]; intros Hi.
  - apply wf_init.
  - destruct (nth_error binary i) as [bit|] eqn:Hbit.
    + rewrite (state_before_S z _ _ _ _ Hbit). apply wf_step, IH. lia.
    + apply nth_error_None in Hbit. lia.
Qed.

(** One bit of a recognized scheme, against the table. *)
Lemma draws_bit_rule (s : scheme) (binary : jsstring) (i : nat)
  (bit : code_unit) :
  nth_error binary i = Some bit ->
  let st := state_before z (scheme_id s) binary i in
  let st' := state_before z (scheme_id s) binary (S i) in
  let r := spec_rule s bit (st_amiPolarity st) (st_cmiPolarity st) in
  exists last,
    draws_bit z (scheme_id s) binary i (touches_boundary s) last
      (start_level r) (body r) /\
    (i <> 0%nat ->
     pen (st_ctx st) = Some (point z (2 * Z.of_nat i) last)) /\
    st_lastY st' = voltage z (end_level r) /\
    st_amiPolarity st' = next_ami r /\
    st_cmiPolarity st' = next_cmi r /\
    (st_amiPolarity st = 1 \/ st_amiPolarity st = -1) /\
    (st_cmiPolarity st = 1 \/ st_cmiPolarity st = -1).
Proof.
  intros Hbit st st' r.
  assert (Hi : (i <= length binary)%nat)
    by (apply Nat.lt_le_incl, nth_error_Some; congruence).
  destruct (wf_state_before s binary i Hi)
    as (last & vs & Hlast & Hctx & Hami & Hcmi & Hshape).
  fold st in Hlast, Hctx, Hami, Hcmi.
  assert (Hpen : i <> 0%nat ->
                 pen (st_ctx st) = Some (point z (2 * Z.of_nat i) last)).
  { intros Hnz. destruct i as [|i]; [congruence|].
    destruct Hshape as (_ & front & f & ->).
    rewrite Hctx. apply pen_render_snoc. }
  assert (Hst' : st' = loop_body z (scheme_id s) (Z.of_nat i) bit st)
    by (apply state_before_S, Hbit).
  rewrite (loop_body_rule z s (Z.of_nat i) bit st last Hlast) in Hst'.
  fold r in Hst'.
  exists last. split; [|split; [exact Hpen|]].
  - unfold draws_bit. fold st st'. rewrite Hst'. cbn [st_ctx].
    split; [exact Hlast|]. split; [now rewrite map_app|]. split.
    + unfold boundary. destruct (Z.eqb_spec (Z.of_nat i) 0) as [E|E].
      * rewrite E. cbn [map]. apply pen_snoc.
      * destruct (level_eqb last (start_level r)) eqn:El.
        -- apply level_eqb_eq in El. rewrite <- El.
           destruct (touches_boundary s); cbn [map].
           ++ apply pen_snoc.
           ++ rewrite app_nil_r. apply Hpen. lia.
        -- cbn [map].
           change [render z (V (2 * Z.of_nat i) last false);
                   render z (V (2 * Z.of_nat i) (start_level r) false)]
             with ([render z (V (2 * Z.of_nat i) last false)]
                   ++ [render z (V (2 * Z.of_nat i) (start_level r) false)]).
           rewrite app_assoc. apply pen_snoc.
    + destruct (drawWaveform_prefix z (scheme_id s) binary (S i))
        as [rest Hrest].
      exists rest. rewrite Hrest. fold st'. now rewrite Hst', map_app.
  - rewrite Hst'. cbn [st_lastY st_amiPolarity st_cmiPolarity]. tauto.
Qed.

End Invariant.

(* ================================================================= *)
(** * The schemes, bit by bit *)

(** Reading one case of the table for a bit of a recognized scheme. *)
Ltac bit_rule z s H :=
  let last := fresh "last" in
  let Hd := fresh "Hdraw" in
  let Hl := fresh "HlastY" in
  let Ha := fresh "Hami" in
  let Hc := fresh "Hcmi" in
  destruct (draws_bit_rule z s _ _ _ H)
    as (last & Hd & _ & Hl & Ha & Hc & ? & ?);
  cbn [spec_rule] in Hd, Hl, Ha, Hc.

(** C1 (AMI).  The AMI polarity starts at +1 and is always +1 or -1.  A
    0-bit is held at ZERO for the whole bit and leaves the polarity as it
    is; a 1-bit is held at HIGH when the polarity is +1 and at LOW when it
    is -1, and flips the polarity.  The bits 0101101 are drawn at the
    levels ZERO, HIGH, ZERO, LOW, HIGH, ZERO, LOW. *)
Theorem ami_alternate_mark_inversion :
  (forall (z : zoom) (binary : jsstring) (i : nat) (bit : code_unit),
      nth_error binary i = Some bit ->
      let pol := st_amiPolarity (state_before z (js "ami") binary i) in
      let pol' := st_amiPolarity (state_before z (js "ami") binary (S i)) in
      st_amiPolarity (state_before z (js "ami") binary 0) = 1 /\
      (pol = 1 \/ pol = -1) /\
      (bit = c0 -> flat_bit z (js "ami") binary i true ZERO /\ pol' = pol) /\
      (bit = c1 -> pol = 1 ->
       flat_bit z (js "ami") binary i true HIGH /\ pol' = -1) /\
      (bit = c1 -> pol = -1 ->
       flat_bit z (js "ami") binary i true LOW /\ pol' = 1))
  /\
  (forall z : zoom,
      Forall2 (fun i l => flat_bit z (js "ami") (js "0101101") i true l)
        (seq 0 7) [ZERO; HIGH; ZERO; LOW; HIGH; ZERO; LOW] /\
      drawWaveform z (js "0101101") (js "ami")
      = map (render z)
          [V 0 ZERO true; V 2 ZERO false;
           V 2 ZERO false; V 2 HIGH false; V 4 HIGH false;
           V 4 HIGH false; V 4 ZERO false; V 6 ZERO false;
           V 6 ZERO false; V 6 LOW false; V 8 LOW false;
           V 8 LOW false; V 8 HIGH false; V 10 HIGH false;
           V 10 HIGH false; V 10 ZERO false; V 12 ZERO false;
           V 12 ZERO false; V 12 LOW false; V 14 LOW false]).
Proof.
  assert (General :
    forall (z : zoom) (binary : jsstring) (i : nat) (bit : code_unit),
      nth_error binary i = Some bit ->
      let pol := st_amiPolarity (state_before z (js "ami") binary i) in
      let pol' := st_amiPolarity (state_before z (js "ami") binary (S i)) in
      st_amiPolarity (state_before z (js "ami") binary 0) = 1 /\
      (pol = 1 \/ pol = -1) /\
      (bit = c0 -> flat_bit z (js "ami") binary i true ZERO /\ pol' = pol) /\
      (bit = c1 -> pol = 1 ->
       flat_bit z (js "ami") binary i true HIGH /\ pol' = -1) /\
      (bit = c1 -> pol = -1 ->
       flat_bit z (js "ami") binary i true LOW /\ pol' = 1)).
  { intros z binary i bit Hbit pol pol'.
    change (js "ami") with (scheme_id AMI) in *.
    bit_rule z AMI Hbit. fold pol in Hdraw, Hami. fold pol' in Hami.
    split; [reflexivity|]. split; [assumption|].
    split; [|split].
    - intros ->. cbn [N.eqb Pos.eqb c0] in *. split; [|exact Hami].
      exists last. exact Hdraw.
    - intros -> Hp. rewrite Hp in *. cbn in Hdraw, Hami.
      split; [|exact Hami]. exists last. exact Hdraw.
    - intros -> Hp. rewrite Hp in *. cbn in Hdraw, Hami.
      split; [|exact Hami]. exists last. exact Hdraw. }
  split; [exact General|].
  intros z. split.
  - repeat (apply Forall2_cons;
            [match goal with
             | |- flat_bit _ _ ?b ?i _ _ =>
                 destruct (General z b i _ eq_refl) as (_ & _ & H0 & H1 & H2);
                 first [ exact (proj1 (H0 eq_refl))
                       | exact (proj1 (H1 eq_refl eq_refl))
                       | exact (proj1 (H2 eq_refl eq_refl)) ]
             end|]).
    apply Forall2_nil.
  - destruct z; vm_compute; reflexivity.
Qed.

(** C2 (CMI).  The CMI polarity starts at -1 and is always +1 or -1.  A
    1-bit is held for the whole bit at HIGH when the polarity is +1 and at
    ZERO when it is -1, and flips the polarity; a 0-bit is at ZERO on its
    first half and at HIGH on its second half and leaves the polarity as
    it is.  For the bits 1101: bit 0 is at ZERO and the polarity becomes
    +1, bit 1 is at HIGH and the polarity becomes -1, bit 2 goes from ZERO
    to HIGH at its middle, bit 3 is at ZERO. *)
Theorem cmi_coded_mark_inversion :
  (forall (z : zoom) (binary : jsstring) (i : nat) (bit : code_unit),
      nth_error binary i = Some bit ->
      let pol := st_cmiPolarity (state_before z (js "cmi") binary i) in
      let pol' := st_cmiPolarity (state_before z (js "cmi") binary (S i)) in
      st_cmiPolarity (state_before z (js "cmi") binary 0) = -1 /\
      (pol = 1 \/ pol = -1) /\
      (bit = c1 -> pol = 1 ->
       flat_bit z (js "cmi") binary i true HIGH /\ pol' = -1) /\
      (bit = c1 -> pol = -1 ->
       flat_bit z (js "cmi") binary i true ZERO /\ pol' = 1) /\
      (bit = c0 ->
       split_bit z (js "cmi") binary i true ZERO HIGH /\ pol' = pol))
  /\
  (forall z : zoom,
      let binary := js "1101" in
      let pol_before i := st_cmiPolarity (state_before z (js "cmi") binary i) in
      flat_bit z (js "cmi") binary 0 true ZERO /\ pol_before 1%nat = 1 /\
      flat_bit z (js "cmi") binary 1 true HIGH /\ pol_before 2%nat = -1 /\
      split_bit z (js "cmi") binary 2 true ZERO HIGH /\
      flat_bit z (js "cmi") binary 3 true ZERO /\
      drawWaveform z binary (js "cmi")
      = map (render z)
          [V 0 ZERO true; V 2 ZERO false;
           V 2 ZERO false; V 2 HIGH false; V 4 HIGH false;
           V 4 HIGH false; V 4 ZERO false;
           V 5 ZERO false; V 5 HIGH false; V 6 HIGH false;
           V 6 HIGH false; V 6 ZERO false; V 8 ZERO false]).
Proof.
  assert (General :
    forall (z : zoom) (binary : jsstring) (i : nat) (bit : code_unit),
      nth_error binary i = Some bit ->
      let pol := st_cmiPolarity (state_before z (js "cmi") binary i) in
      let pol' := st_cmiPolarity (state_before z (js "cmi") binary (S i)) in
      st_cmiPolarity (state_before z (js "cmi") binary 0) = -1 /\
      (pol = 1 \/ pol = -1) /\
      (bit = c1 -> pol = 1 ->
       flat_bit z (js "cmi") binary i true HIGH /\ pol' = -1) /\
      (bit = c1 -> pol = -1 ->
       flat_bit z (js "cmi") binary i true ZERO /\ pol' = 1) /\
      (bit = c0 ->
       split_bit z (js "cmi") binary i true ZERO HIGH /\ pol' = pol)).
  { intros z binary i bit Hbit pol pol'.
    change (js "cmi") with (scheme_id CMI) in *.
    bit_rule z CMI Hbit. fold pol in Hdraw, Hcmi. fold pol' in Hcmi.
    split; [reflexivity|]. split; [assumption|].
    split; [|split].
    - intros -> Hp. rewrite Hp in *. cbn in Hdraw, Hcmi.
      split; [|exact Hcmi]. exists last. exact Hdraw.
    - intros -> Hp. rewrite Hp in *. cbn in Hdraw, Hcmi.
      split; [|exact Hcmi]. exists last. exact Hdraw.
    - intros ->. cbn [N.eqb Pos.eqb c0 c1] in *. split; [|exact Hcmi].
      exists last. exact Hdraw. }
  split; [exact General|].
  intros z binary pol_before.
  destruct (General z binary 0%nat _ eq_refl) as (_ & _ & _ & B0 & _).
  destruct (General z binary 1%nat _ eq_refl) as (_ & _ & B1 & _ & _).
  destruct (General z binary 2%nat _ eq_refl) as (_ & _ & _ & _ & B2).
  destruct (General z binary 3%nat _ eq_refl) as (_ & _ & _ & B3 & _).
  split; [exact (proj1 (B0 eq_refl eq_refl))|].
  split; [exact (proj2 (B0 eq_refl eq_refl))|].
  split; [exact (proj1 (B1 eq_refl eq_refl))|].
  split; [exact (proj2 (B1 eq_refl eq_refl))|].
  split; [exact (proj1 (B2 eq_refl))|].
  split; [exact (proj1 (B3 eq_refl eq_refl))|].
  destruct z; vm_compute; reflexivity.
Qed.

(** C3 (Manchester).  Whatever its neighbours, a 1-bit is at LOW on its
    first half and at HIGH on its second half, and a 0-bit is at HIGH on
    its first half and at LOW on its second half: every bit has its
    transition at its middle, upward for 1 and downward for 0. *)
Theorem manchester_mid_bit_transition :
  forall (z : zoom) (binary : jsstring) (i : nat) (bit : code_unit),
    nth_error binary i = Some bit ->
    (bit = c1 -> split_bit z (js "manchester") binary i false LOW HIGH) /\
    (bit = c0 -> split_bit z (js "manchester") binary i false HIGH LOW).
Proof.
  intros z binary i bit Hbit.
  change (js "manchester") with (scheme_id Manchester).
  bit_rule z Manchester Hbit.
  split; intros ->; cbn in Hdraw; exists last; exact Hdraw.
Qed.

(** C4 (RZ).  The first half of a bit is at HIGH for a 1 and at LOW for a
    0, the second half is at ZERO, and the bit ends at ZERO, whatever
    level the previous bit ended at. *)
Theorem rz_returns_to_zero :
  forall (z : zoom) (binary : jsstring) (i : nat) (bit : code_unit),
    nth_error binary i = Some bit ->
    (bit = c1 -> split_bit z (js "rz") binary i true HIGH ZERO) /\
    (bit = c0 -> split_bit z (js "rz") binary i true LOW ZERO) /\
    st_lastY (state_before z (js "rz") binary (S i)) = voltage z ZERO.
Proof.
  intros z binary i bit Hbit.
  change (js "rz") with (scheme_id RZ).
  bit_rule z RZ Hbit.
  split; [|split].
  - intros ->. cbn in Hdraw. exists last; exact Hdraw.
  - intros ->. cbn in Hdraw. exists last; exact Hdraw.
  - rewrite HlastY. reflexivity.
Qed.

(** C5 (NRZ-L), as the code has it.  A bit is held for the whole bit at
    HIGH when it is 1 and at ZERO when it is 0, and [lastY] holds that
    level afterwards.  The first bit starts the path with a pen-up
    vertex; at every later bit boundary the pen rests at the level
    [last] the previous bit ended at (HIGH after a 1, ZERO after any
    other character), nothing is drawn when the bit's level is [last],
    and a vertical pen-down segment from [last] to the new level is
    drawn when it is not.  The text "A" gives the bits 01000001, drawn at the
    levels ZERO, HIGH, ZERO, ZERO, ZERO, ZERO, ZERO, HIGH by a path of 15
    vertices, of which only the first starts a new segment. *)
Theorem nrz_level_per_bit :
  (forall (z : zoom) (binary : jsstring) (i : nat) (bit : code_unit),
      nth_error binary i = Some bit ->
      exists last l : level,
        (bit = c1 -> l = HIGH) /\
        (bit = c0 -> l = ZERO) /\
        draws_bit z (js "nrz") binary i false last l [(2, l)] /\
        (i <> 0%nat ->
         pen (st_ctx (state_before z (js "nrz") binary i))
         = Some (point z (2 * Z.of_nat i) last)) /\
        (forall (k : nat) (prev : code_unit),
            i = S k -> nth_error binary k = Some prev ->
            last = if N.eqb prev c1 then HIGH else ZERO) /\
        st_lastY (state_before z (js "nrz") binary (S i)) = voltage z l /\
        boundary false (Z.of_nat i) last l
        = match i with
          | O => [V 0 l true]
          | S _ =>
              if level_eqb last l then []
              else [V (2 * Z.of_nat i) last false;
                    V (2 * Z.of_nat i) l false]
          end)
  /\
  (forall z : zoom,
      let binary := stringToBinary (js "A") in
      binary = js "01000001" /\
      Forall2 (fun i l => flat_bit z (js "nrz") binary i false l)
        (seq 0 8) [ZERO; HIGH; ZERO; ZERO; ZERO; ZERO; ZERO; HIGH] /\
      drawWaveform z binary (js "nrz")
      = map (render z)
          [V 0 ZERO true; V 2 ZERO false;
           V 2 ZERO false; V 2 HIGH false; V 4 HIGH false;
           V 4 HIGH false; V 4 ZERO false; V 6 ZERO false;
           V 8 ZERO false;
           V 10 ZERO false;
           V 12 ZERO false;
           V 14 ZERO false;
           V 14 ZERO false; V 14 HIGH false; V 16 HIGH false]).
Proof.
  assert (General :
    forall (z : zoom) (binary : jsstring) (i : nat) (bit : code_unit),
      nth_error binary i = Some bit ->
      exists last l : level,
        (bit = c1 -> l = HIGH) /\
        (bit = c0 -> l = ZERO) /\
        draws_bit z (js "nrz") binary i false last l [(2, l)] /\
        (i <> 0%nat ->
         pen (st_ctx (state_before z (js "nrz") binary i))
         = Some (point z (2 * Z.of_nat i) last)) /\
        (forall (k : nat) (prev : code_unit),
            i = S k -> nth_error binary k = Some prev ->
            last = if N.eqb prev c1 then HIGH else ZERO) /\
        st_lastY (state_before z (js "nrz") binary (S i)) = voltage z l /\
        boundary false (Z.of_nat i) last l
        = match i with
          | O => [V 0 l true]
          | S _ =>
              if level_eqb last l then []
              else [V (2 * Z.of_nat i) last false;
                    V (2 * Z.of_nat i) l false]
          end).
  { intros z binary i bit Hbit.
    change (js "nrz") with (scheme_id NRZ).
    destruct (draws_bit_rule z NRZ _ _ _ Hbit)
      as (last & Hdraw & Hpen & HlastY & _).
    cbn [spec_rule flat_rule start_level body end_level] in Hdraw, HlastY.
    exists last, (if N.eqb bit c1 then HIGH else ZERO).
    split; [now intros ->|]. split; [now intros ->|].
    split; [exact Hdraw|]. split; [exact Hpen|]. split; [|split].
    - intros k prev -> Hprev.
      destruct (draws_bit_rule z NRZ _ _ _ Hprev) as (_ & _ & _ & Hend & _).
      cbn [spec_rule flat_rule end_level] in Hend.
      destruct Hdraw as (Hlast & _).
      rewrite Hend in Hlast. symmetry. exact (voltage_inj z _ _ Hlast).
    - exact HlastY.
    - unfold boundary. destruct i as [|i]; [reflexivity|].
      destruct (Z.eqb_spec (Z.of_nat (S i)) 0) as [E|_]; [lia|reflexivity]. }
  split; [exact General|].
  intros z binary. split; [reflexivity|]. split.
  - repeat (apply Forall2_cons;
            [match goal with
             | |- flat_bit _ _ ?b ?i _ _ =>
                 destruct (General z b i _ eq_refl)
                   as (last & l & H1 & H0 & H & _);
                 first [rewrite (H1 eq_refl) in H | rewrite (H0 eq_refl) in H];
                 exists last; exact H
             end|]).
    apply Forall2_nil.
  - destruct z; vm_compute; reflexivity.
Qed.

(** C7.  For each of the five schemes and every non-empty bit string the
    path is one connected polyline: its first vertex, at position 0, is
    the only one that starts a new segment.  At the boundary in front of
    every later bit the pen rests at the level the previous bit ended at;
    when the bit starts at that same level, the loop adds there nothing
    or only a vertex at the point where the pen already is, and when the
    bit starts at another level it adds, pen down, the vertical segment
    from the old level to the new one; the vertices that follow lie
    beyond the boundary, the first of them at the bit's starting level. *)
Theorem single_connected_polyline :
  forall (z : zoom) (s : scheme) (binary : jsstring),
    binary <> [] ->
    (exists (l : level) (tail : list vertex),
        drawWaveform z binary (scheme_id s)
        = map (render z) (V 0 l true :: tail) /\
        Forall (fun v => startsNewSegment v = false) tail)
    /\
    (forall (i : nat) (bit : code_unit),
        nth_error binary (S i) = Some bit ->
        let before := st_ctx (state_before z (scheme_id s) binary (S i)) in
        let after := st_ctx (state_before z (scheme_id s) binary (S (S i))) in
        let p := 2 * Z.of_nat (S i) in
        exists (last start : level) (join : list vertex)
               (q : Z) (more : list (Z * level)),
          pen before = Some (point z p last) /\
          after = before ++ map (render z)
                    (join ++ body_vertices (Z.of_nat (S i)) ((q, start) :: more)) /\
          (last = start -> join = [] \/ join = [V p last false]) /\
          (last <> start -> join = [V p last false; V p start false]) /\
          0 < q /\ Forall (fun ol => 0 < fst ol) more).
Proof.
  intros z s binary Hne. split.
  - rewrite state_before_all.
    destruct (wf_state_before z s binary (length binary) (le_n _))
      as (last & vs & _ & Hctx & _ & _ & Hshape).
    destruct (length binary) as [|n] eqn:Hlen.
    + apply length_zero_iff_nil in Hlen. contradiction.
    + destruct Hshape as ((l & tail & -> & Htail) & _).
      exists l, tail. split; [exact Hctx | exact Htail].
  - intros i bit Hbit before after p.
    destruct (draws_bit_rule z s _ _ _ Hbit)
      as (last & Hdraw & Hpen & _).
    destruct Hdraw as (_ & Hafter & _ & _).
    set (r := spec_rule s bit
                (st_amiPolarity (state_before z (scheme_id s) binary (S i)))
                (st_cmiPolarity (state_before z (scheme_id s) binary (S i))))
      in *.
    destruct (spec_rule_body s bit
                (st_amiPolarity (state_before z (scheme_id s) binary (S i)))
                (st_cmiPolarity (state_before z (scheme_id s) binary (S i))))
      as (_ & (q & more & Hbody & Hq) & Hall).
    fold r in Hbody, Hall. rewrite Hbody in Hafter, Hall.
    exists last, (start_level r),
      (boundary (touches_boundary s) (Z.of_nat (S i)) last (start_level r)),
      q, more.
    split; [apply Hpen; discriminate|].
    split; [fold before after in Hafter; now rewrite map_app|].
    unfold boundary. destruct (Z.eqb_spec (Z.of_nat (S i)) 0) as [E|_]; [lia|].
    fold p. repeat split.
    + intros <-. replace (level_eqb last last) with true
        by (symmetry; now apply level_eqb_eq).
      destruct (touches_boundary s); auto.
    + intros Hd. destruct (level_eqb last (start_level r)) eqn:E;
        [apply level_eqb_eq in E; contradiction | reflexivity].
    + exact Hq.
    + now inversion Hall.
Qed.

(* ================================================================= *)
(** * Inputs outside the contract *)

Section OutsideContract.

Variable z : zoom.

(** A character other than '0' and '1' goes through the [else] branches:
    [drawAMI] tests [bit === '0'], the other four test [bit === '1']. *)
Lemma loop_body_other_char (encoding : jsstring) (i : Z) (bit : code_unit)
  (st : loop_state) :
  bit <> c0 -> bit <> c1 ->
  loop_body z encoding i bit st
  = loop_body z encoding i
      (if str_eqb encoding (js "ami") then c1 else c0) st.
Proof.
  intros H0 H1.
  apply N.eqb_neq in H0, H1.
  unfold loop_body.
  destruct (str_eqb encoding (js "nrz")) eqn:Enrz;
    [apply str_eqb_eq in Enrz; subst encoding;
     unfold drawNRZ; cbn [str_eqb js]; now rewrite H1|].
  destruct (str_eqb encoding (js "rz")) eqn:Erz;
    [apply str_eqb_eq in Erz; subst encoding;
     unfold drawRZ; cbn [str_eqb js]; now rewrite H1|].
  destruct (str_eqb encoding (js "manchester")) eqn:Eman;
    [apply str_eqb_eq in Eman; subst encoding;
     unfold drawManchester; cbn [str_eqb js]; now rewrite H1|].
  destruct (str_eqb encoding (js "ami")) eqn:Eami;
    [unfold drawAMI; now rewrite H0|].
  destruct (str_eqb encoding (js "cmi")) eqn:Ecmi;
    [unfold drawCMI; now rewrite H1|].
  reflexivity.
Qed.

Lemma drawWaveform_other_char (encoding pre post : jsstring) (bit : code_unit) :
  bit <> c0 -> bit <> c1 ->
  drawWaveform z (pre ++ bit :: post) encoding
  = drawWaveform z
      (pre ++ (if str_eqb encoding (js "ami") then c1 else c0) :: post)
      encoding.
Proof.
  intros H0 H1. unfold drawWaveform.
  rewrite !waveform_loop_app. cbn [waveform_loop].
  now rewrite (loop_body_other_char encoding _ bit _ H0 H1).
Qed.

(** With an identifier that matches no [case], an iteration does nothing. *)
Lemma loop_body_unrecognized (encoding : jsstring) (i : Z) (bit : code_unit)
  (st : loop_state) :
  (forall s, encoding <> scheme_id s) ->
  loop_body z encoding i bit st = st.
Proof.
  intros Hs. unfold loop_body.
  assert (E : forall s, str_eqb encoding (scheme_id s) = false).
  { intros s. destruct (str_eqb encoding (scheme_id s)) eqn:E; [|reflexivity].
    apply str_eqb_eq in E. now apply Hs in E. }
  now rewrite (E NRZ : str_eqb encoding (js "nrz") = false),
    (E RZ : str_eqb encoding (js "rz") = false),
    (E Manchester : str_eqb encoding (js "manchester") = false),
    (E AMI : str_eqb encoding (js "ami") = false),
    (E CMI : str_eqb encoding (js "cmi") = false).
Qed.

Lemma waveform_loop_unrecognized (encoding binary : jsstring) :
  (forall s, encoding <> scheme_id s) ->
  forall (i : Z) (st : loop_state),
    waveform_loop z encoding i binary st = st.
Proof.
  intros Hs. induction binary as [|b rest IH]; intros i st; cbn [waveform_loop].
  - reflexivity.
  - now rewrite loop_body_unrecognized, IH.
Qed.

(** A recognized scheme draws something for a non-empty bit string. *)
Lemma drawWaveform_nonempty (s : scheme) (binary : jsstring) :
  binary <> [] -> drawWaveform z binary (scheme_id s) <> [].
Proof.
  intros Hne. rewrite state_before_all.
  destruct (wf_state_before z s binary (length binary) (le_n _))
    as (last & vs & _ & Hctx & _ & _ & Hshape).
  destruct (length binary) as [|n] eqn:Hlen.
  - apply length_zero_iff_nil in Hlen. contradiction.
  - destruct Hshape as ((l & tail & -> & _) & _).
    rewrite Hctx. discriminate.
Qed.

End OutsideContract.

(** C8, as the code has it.  [generate] never fails: it returns a path for
    every input.  For the empty bit string the path is empty; a character
    other than '0' and '1' is drawn as a 1 by AMI and as a 0 under every
    other scheme identifier. *)
Theorem generate_never_fails :
  forall (z : zoom) (bits schemeId pre post : jsstring) (bit : code_unit),
    bit <> c0 -> bit <> c1 ->
    (exists path, generate z bits schemeId = Returns path) /\
    generate z [] schemeId = Returns [] /\
    generate z (pre ++ bit :: post) schemeId
    = generate z
        (pre ++ (if str_eqb schemeId (js "ami") then c1 else c0) :: post)
        schemeId.
Proof.
  intros z bits schemeId pre post bit H0 H1.
  split; [eexists; reflexivity|]. split; [reflexivity|].
  unfold generate. f_equal. now apply drawWaveform_other_char.
Qed.

(** C9, as the code has it.  With an identifier that is none of the five
    recognized ones, [generate] does not fail: it returns the empty path
    for every bit string.  No scheme is drawn in its place: for a
    non-empty bit string each of the five schemes returns a non-empty
    path. *)
Theorem unrecognized_scheme_draws_nothing :
  forall (z : zoom) (bits schemeId : jsstring),
    (forall s, schemeId <> scheme_id s) ->
    generate z bits schemeId = Returns [] /\
    (bits <> [] ->
     forall s, generate z bits schemeId <> generate z bits (scheme_id s)).
Proof.
  intros z bits schemeId Hs.
  assert (E : drawWaveform z bits schemeId = []).
  { unfold drawWaveform. now rewrite waveform_loop_unrecognized. }
  unfold generate. rewrite E. split; [reflexivity|].
  intros Hne s Heq. injection Heq as Heq. symmetry in Heq.
  now apply drawWaveform_nonempty in Heq.
Qed.

(* ================================================================= *)
(** * Text to bits: the claims *)

(** C6.  For a non-empty ASCII text, [stringToBinary] returns 8 bits per
    character: the concatenation, in order, of the 8-bit
    most-significant-bit-first zero-padded numerals of the characters'
    code points; cutting the result into groups of 8 bits and reading
    each as a binary numeral gives the code points back. *)
Theorem stringToBinary_ascii_roundtrip :
  forall T : jsstring,
    T <> [] ->
    Forall (fun u => (u < 128)%N) T ->
    length (stringToBinary T) = (8 * length T)%nat /\
    stringToBinary T = concat (map byte_bits T) /\
    decode (stringToBinary T) = T.
Proof.
  intros T _ Hascii.
  assert (Hbytes : Forall (fun u => (u < 256)%N) T)
    by (eapply Forall_impl; [|exact Hascii]; cbn; intros; lia).
  rewrite (stringToBinary_bytes T Hbytes).
  split; [apply length_concat_byte_bits|].
  split; [reflexivity|]. now apply decode_bytes.
Qed.

(** C10.  For a character of [Array.from(str)] whose code point exceeds
    255, [charToBinary] returns the digits of [toString(2)] as they are,
    more than 8 of them: [padStart] pads and never cuts.  The string
    [stringToBinary] returns is then longer than 8 times the number of
    characters. *)
Theorem charToBinary_wide_code_point :
  forall (str char : jsstring) (cp : N),
    In char (Array_from str) ->
    codePointAt0 char = Some cp ->
    (255 < cp)%N ->
    charToBinary char = toString2 (charCodeAt0 char) /\
    (8 < length (charToBinary char))%nat /\
    (8 * length (Array_from str) < length (stringToBinary str))%nat.
Proof.
  intros str char cp Hin Hcp Hwide.
  destruct (codePoint_wide char cp Hcp Hwide) as (u & rest & -> & Hu).
  pose proof (charToBinary_wide u rest Hu) as Hdigits.
  pose proof (length_toString2_wide u Hu) as Hlen.
  rewrite <- Hdigits in Hlen.
  split; [exact Hdigits|]. split; [exact Hlen|].
  unfold stringToBinary. now apply length_stringToBinary_gt with (u :: rest).
Qed.

(* ================================================================= *)
(** * Concrete runs *)

(** In the bits 0101101 under AMI, bit 3 is the second 1: the polarity is
    -1 when it is read, it is drawn at LOW, and the polarity is +1
    afterwards. *)
Lemma ami_alternate_mark_inversion_witness :
  nth_error (js "0101101") 3 = Some c1 /\
  st_amiPolarity (state_before Z100 (js "ami") (js "0101101") 3) = -1 /\
  flat_bit Z100 (js "ami") (js "0101101") 3 true LOW /\
  st_amiPolarity (state_before Z100 (js "ami") (js "0101101") 4) = 1.
Proof.
  split; [reflexivity|]. split; [reflexivity|].
  exact (proj2 (proj2 (proj2 (proj2
           (proj1 ami_alternate_mark_inversion
              Z100 (js "0101101") 3%nat c1 eq_refl))))
           eq_refl eq_refl).
Defined.

(** In the bits 1101 under CMI, bit 0 is read at polarity -1, drawn at
    ZERO, and leaves the polarity at +1. *)
Lemma cmi_coded_mark_inversion_witness :
  nth_error (js "1101") 0 = Some c1 /\
  st_cmiPolarity (state_before Z100 (js "cmi") (js "1101") 0) = -1 /\
  flat_bit Z100 (js "cmi") (js "1101") 0 true ZERO /\
  st_cmiPolarity (state_before Z100 (js "cmi") (js "1101") 1) = 1.
Proof.
  split; [reflexivity|]. split; [reflexivity|].
  exact (proj1 (proj2 (proj2 (proj2
           (proj1 cmi_coded_mark_inversion
              Z100 (js "1101") 0%nat c1 eq_refl))))
           eq_refl eq_refl).
Defined.

(** Bit 1 of 10 under Manchester is a 0: HIGH then LOW. *)
Lemma manchester_mid_bit_transition_witness :
  nth_error (js "10") 1 = Some c0 /\
  split_bit Z100 (js "manchester") (js "10") 1 false HIGH LOW.
Proof.
  split; [reflexivity|].
  exact (proj2 (manchester_mid_bit_transition
                  Z100 (js "10") 1%nat c0 eq_refl) eq_refl).
Defined.

(** Bit 1 of 01 under RZ is a 1: HIGH then ZERO, ending at ZERO. *)
Lemma rz_returns_to_zero_witness :
  nth_error (js "01") 1 = Some c1 /\
  split_bit Z100 (js "rz") (js "01") 1 true HIGH ZERO /\
  st_lastY (state_before Z100 (js "rz") (js "01") 2) = voltage Z100 ZERO.
Proof.
  split; [reflexivity|].
  pose proof (rz_returns_to_zero Z100 (js "01") 1%nat c1 eq_refl)
    as (H1 & _ & Hend).
  exact (conj (H1 eq_refl) Hend).
Defined.

(** Bit 1 of 01 under NRZ-L. *)
Lemma nrz_level_per_bit_witness :
  nth_error (js "01") 1 = Some c1 /\
  exists last l : level,
    (c1 = c1 -> l = HIGH) /\
    (c1 = c0 -> l = ZERO) /\
    draws_bit Z100 (js "nrz") (js "01") 1 false last l [(2, l)] /\
    (1%nat <> 0%nat ->
     pen (st_ctx (state_before Z100 (js "nrz") (js "01") 1))
     = Some (point Z100 (2 * Z.of_nat 1) last)) /\
    (forall (k : nat) (prev : code_unit),
        1%nat = S k -> nth_error (js "01") k = Some prev ->
        last = if N.eqb prev c1 then HIGH else ZERO) /\
    st_lastY (state_before Z100 (js "nrz") (js "01") 2) = voltage Z100 l /\
    boundary false (Z.of_nat 1) last l
    = (if level_eqb last l then []
       else [V (2 * Z.of_nat 1) last false; V (2 * Z.of_nat 1) l false]).
Proof.
  split; [reflexivity|].
  exact (proj1 nrz_level_per_bit Z100 (js "01") 1%nat c1 eq_refl).
Defined.

(** The path drawn for "A" under NRZ-L is not one of 8 vertices. *)
Lemma nrz_A_is_not_8_vertices :
  ~ (exists vs : list vertex,
        drawWaveform Z100 (stringToBinary (js "A")) (js "nrz")
        = map (render Z100) vs /\
        length vs = 8%nat).
Proof.
  intros (vs & E & L).
  apply (f_equal (@length path_op)) in E. rewrite length_map, L in E.
  vm_compute in E. discriminate E.
Qed.

(** The text "Hi". *)
Lemma stringToBinary_ascii_roundtrip_witness :
  js "Hi" <> [] /\
  Forall (fun u => (u < 128)%N) (js "Hi") /\
  length (stringToBinary (js "Hi")) = (8 * length (js "Hi"))%nat /\
  stringToBinary (js "Hi") = concat (map byte_bits (js "Hi")) /\
  decode (stringToBinary (js "Hi")) = js "Hi".
Proof.
  assert (Hne : js "Hi" <> []) by discriminate.
  assert (Hascii : Forall (fun u => (u < 128)%N) (js "Hi"))
    by (repeat apply Forall_cons; try reflexivity; apply Forall_nil).
  exact (conj Hne (conj Hascii
           (stringToBinary_ascii_roundtrip (js "Hi") Hne Hascii))).
Defined.

(** The bits 10 under RZ: one pen-up vertex, and bit 1 read at index 1. *)
Lemma single_connected_polyline_witness :
  js "10" <> [] /\
  (exists (l : level) (tail : list vertex),
      drawWaveform Z100 (js "10") (scheme_id RZ)
      = map (render Z100) (V 0 l true :: tail) /\
      Forall (fun v => startsNewSegment v = false) tail) /\
  nth_error (js "10") 1 = Some c0 /\
  (exists (last start : level) (join : list vertex)
          (q : Z) (more : list (Z * level)),
      pen (st_ctx (state_before Z100 (scheme_id RZ) (js "10") 1))
      = Some (point Z100 (2 * Z.of_nat 1) last) /\
      st_ctx (state_before Z100 (scheme_id RZ) (js "10") 2)
      = st_ctx (state_before Z100 (scheme_id RZ) (js "10") 1)
        ++ map (render Z100)
             (join ++ body_vertices (Z.of_nat 1) ((q, start) :: more)) /\
      (last = start ->
       join = [] \/ join = [V (2 * Z.of_nat 1) last false]) /\
      (last <> start ->
       join = [V (2 * Z.of_nat 1) last false;
               V (2 * Z.of_nat 1) start false]) /\
      0 < q /\ Forall (fun ol => 0 < fst ol) more).
Proof.
  assert (Hne : js "10" <> []) by discriminate.
  pose proof (single_connected_polyline Z100 RZ (js "10") Hne) as (H1 & H2).
  exact (conj Hne (conj H1 (conj eq_refl (H2 0%nat c0 eq_refl)))).
Defined.

(** The empty bit string, and the character '2', are drawn without
    failure. *)
Lemma generate_does_not_fail_on_invalid_input :
  generate Z100 [] (js "nrz") = Returns [] /\
  generate Z100 [] (js "nrz") <> Fails InvalidInput /\
  generate Z100 (js "2") (js "nrz") = Returns [MoveTo 80 120; LineTo 120 120] /\
  generate Z100 (js "2") (js "nrz") <> Fails InvalidInput.
Proof.
  split; [reflexivity|]. split; [discriminate|].
  split; [reflexivity|discriminate].
Qed.

(** The character '2' under AMI and under NRZ-L. *)
Lemma generate_never_fails_witness :
  50%N <> c0 /\ 50%N <> c1 /\
  generate Z100 (js "0" ++ 50%N :: js "1") (js "ami")
  = generate Z100 (js "0" ++ c1 :: js "1") (js "ami") /\
  generate Z100 (js "0" ++ 50%N :: js "1") (js "nrz")
  = generate Z100 (js "0" ++ c0 :: js "1") (js "nrz").
Proof.
  assert (H0 : 50%N <> c0) by discriminate.
  assert (H1 : 50%N <> c1) by discriminate.
  split; [exact H0|]. split; [exact H1|]. split.
  - exact (proj2 (proj2 (generate_never_fails Z100 [] (js "ami")
                           (js "0") (js "1") 50%N H0 H1))).
  - exact (proj2 (proj2 (generate_never_fails Z100 [] (js "nrz")
                           (js "0") (js "1") 50%N H0 H1))).
Defined.

(** The identifier "nrzi" is not recognized: nothing is drawn, and no
    failure is raised. *)
Lemma generate_does_not_fail_on_unrecognized_scheme :
  generate Z100 (js "01") (js "nrzi") = Returns [] /\
  generate Z100 (js "01") (js "nrzi") <> Fails UnsupportedScheme.
Proof. split; [reflexivity|discriminate]. Qed.

Lemma unrecognized_scheme_draws_nothing_witness :
  (forall s, js "nrzi" <> scheme_id s) /\
  generate Z100 (js "01") (js "nrzi") = Returns [].
Proof.
  assert (Hs : forall s, js "nrzi" <> scheme_id s)
    by (intros []; discriminate).
  exact (conj Hs (proj1 (unrecognized_scheme_draws_nothing
                           Z100 (js "01") (js "nrzi") Hs))).
Defined.

(** The one-character text U+0100: 9 bits. *)
Lemma charToBinary_wide_code_point_witness :
  In [256%N] (Array_from [256%N]) /\
  codePointAt0 [256%N] = Some 256%N /\
  (255 < 256)%N /\
  charToBinary [256%N] = toString2 (charCodeAt0 [256%N]) /\
  (8 < length (charToBinary [256%N]))%nat /\
  (8 * length (Array_from [256%N]) < length (stringToBinary [256%N]))%nat.
Proof.
  assert (Hin : In [256%N] (Array_from [256%N])) by (left; reflexivity).
  assert (Hlt : (255 < 256)%N) by reflexivity.
  exact (conj Hin (conj eq_refl (conj Hlt
           (charToBinary_wide_code_point [256%N] [256%N] 256%N
              Hin eq_refl Hlt)))).
Defined.

(* ================================================================= *)
(** * Further properties of the text conversion *)

Section TextMore.

Lemma pos_digits_bits (p : positive) (acc : jsstring) :
  Forall is_bit acc -> Forall is_bit (pos_digits p acc).
Proof.
  revert acc; induction p as [p IH|p IH|]; intros acc Hacc; cbn [pos_digits].
  - apply IH. constructor; [now right | exact Hacc].
  - apply IH. constructor; [now left | exact Hacc].
  - constructor; [now right | exact Hacc].
Qed.

Lemma toString2_bits (u : N) : Forall is_bit (toString2 (Some u)).
Proof.
  destruct u as [|p]; cbn [toString2].
  - constructor; [now left | constructor].
  - apply pos_digits_bits. constructor.
Qed.

Lemma padStart_zero_bits (n : nat) (s : jsstring) :
  Forall is_bit s -> Forall is_bit (padStart n (js "0") s).
Proof.
  intros Hs. unfold padStart. destruct (n <=? length s)%nat; [exact Hs|].
  cbn [js list_ascii_of_string map].
  apply Forall_app. split; [|exact Hs].
  apply Forall_forall. intros b Hb.
  set (k := (n - length s)%nat) in *.
  assert (Hc : In b (concat (repeat [N_of_ascii "0"] k)))
    by (rewrite <- (firstn_skipn k (concat (repeat [N_of_ascii "0"] k)));
        apply in_or_app; now left).
  apply in_concat in Hc as (l & Hl & Hc). rename Hc into Hb'.
  apply repeat_spec in Hl. subst l. destruct Hb' as [<-|[]]. now left.
Qed.

Lemma Array_from_cons2 (u v : code_unit) (rest : jsstring) :
  Array_from (u :: v :: rest)
  = if is_high_surrogate u && is_low_surrogate v
    then [u; v] :: Array_from rest
    else [u] :: Array_from (v :: rest).
Proof. reflexivity. Qed.

Lemma Array_from_nonempty (str : jsstring) :
  Forall (fun char => exists u rest, char = u :: rest) (Array_from str).
Proof.
  remember (length str) as n eqn:Hn.
  revert str Hn. induction n as [n IH] using lt_wf_ind. intros str Hn.
  destruct str as [|u [|v rest]].
  - constructor.
  - constructor; [eauto | constructor].
  - rewrite Array_from_cons2.
    destruct (is_high_surrogate u && is_low_surrogate v).
    + constructor; [eauto|].
      apply (IH (length rest)); [subst n; cbn; lia | reflexivity].
    + constructor; [eauto|].
      apply (IH (length (v :: rest))); [subst n; cbn; lia | reflexivity].
Qed.

Lemma decode_bytes_range (bits : jsstring) :
  Forall (fun u => (u < 256)%N) (decode bits).
Proof.
  remember (length bits) as n eqn:Hn.
  revert bits Hn. induction n as [n IH] using lt_wf_ind. intros bits Hn.
  destruct bits as [|b7 [|b6 [|b5 [|b4 [|b3 [|b2 [|b1 [|b0 rest]]]]]]]];
    try (cbn [decode]; constructor).
  - unfold parse_binary. cbn [fold_left].
    destruct (N.eqb b7 c1), (N.eqb b6 c1), (N.eqb b5 c1), (N.eqb b4 c1),
      (N.eqb b3 c1), (N.eqb b2 c1), (N.eqb b1 c1), (N.eqb b0 c1);
      reflexivity.
  - apply (IH (length rest)); [subst n; cbn [length]; lia | reflexivity].
Qed.

Lemma size_nat_upper (p : positive) (n : nat) :
  (Z.pos p < 2 ^ Z.of_nat n)%Z -> (Pos.size_nat p <= n)%nat.
Proof.
  revert n; induction p as [p IH|p IH|]; intros n Hn; cbn [Pos.size_nat].
  - destruct n as [|n]; [cbn in Hn; lia|].
    rewrite Nat2Z.inj_succ, Z.pow_succ_r in Hn by lia.
    specialize (IH n ltac:(lia)). lia.
  - destruct n as [|n]; [cbn in Hn; lia|].
    rewrite Nat2Z.inj_succ, Z.pow_succ_r in Hn by lia.
    specialize (IH n ltac:(lia)). lia.
  - destruct n as [|n]; [cbn in Hn; lia|]. lia.
Qed.

Lemma length_toString2_high_surrogate (hi : code_unit) :
  is_high_surrogate hi = true -> length (toString2 (Some hi)) = 16%nat.
Proof.
  unfold is_high_surrogate. rewrite andb_true_iff, !N.leb_le. intros [Hlo Hhi].
  destruct hi as [|p]; [lia|]. cbn [toString2].
  rewrite length_pos_digits. cbn [length].
  assert (Pos.size_nat p <= 16)%nat
    by (apply size_nat_upper; change (2 ^ Z.of_nat 16)%Z with 65536%Z; lia).
  destruct (Nat.leb_spec (Pos.size_nat p) 15) as [H15|H15]; [|lia].
  apply size_nat_bound in H15.
  change (2 ^ Z.of_nat 15)%Z with 32768%Z in H15. lia.
Qed.

Lemma Array_from_app (s t : jsstring) :
  match t with
  | v :: _ => is_low_surrogate v = false
  | [] => True
  end ->
  Array_from (s ++ t) = Array_from s ++ Array_from t.
Proof.
  intros Ht.
  remember (length s) as n eqn:Hn.
  revert s Hn. induction n as [n IH] using lt_wf_ind. intros s Hn.
  destruct s as [|u [|v rest]].
  - reflexivity.
  - cbn [app]. destruct t as [|w t']; [reflexivity|].
    rewrite Array_from_cons2, Ht, andb_false_r. reflexivity.
  - change ((u :: v :: rest) ++ t) with (u :: v :: (rest ++ t)).
    rewrite !Array_from_cons2.
    destruct (is_high_surrogate u && is_low_surrogate v).
    + rewrite (IH (length rest)); [reflexivity | subst n; cbn; lia | reflexivity].
    + change (v :: rest ++ t) with ((v :: rest) ++ t).
      rewrite (IH (length (v :: rest)));
        [reflexivity | subst n; cbn; lia | reflexivity].
Qed.

End TextMore.

(** X1.  Whatever the text, [stringToBinary] returns only the characters
    '0' and '1'. *)
Theorem stringToBinary_only_bits :
  forall str : jsstring,
    Forall (fun b => b = c0 \/ b = c1) (stringToBinary str).
Proof.
  intros str. unfold stringToBinary.
  pose proof (Array_from_nonempty str) as Hne.
  induction Hne as [|char chars (u & rest & ->) _ IH]; cbn [map concat].
  - constructor.
  - apply Forall_app. split; [|exact IH].
    unfold charToBinary. cbn [charCodeAt0].
    apply padStart_zero_bits, toString2_bits.
Qed.

(** X2.  A character outside the basic plane (a high surrogate followed by
    a low surrogate) is converted to the 16 binary digits of its high
    surrogate alone: the low surrogate does not reach the output, so two
    such characters that share the high surrogate give the same bits. *)
Theorem stringToBinary_surrogate_pair :
  forall (hi lo lo' : code_unit) (rest : jsstring),
    is_high_surrogate hi = true ->
    is_low_surrogate lo = true ->
    is_low_surrogate lo' = true ->
    stringToBinary (hi :: lo :: rest)
    = toString2 (Some hi) ++ stringToBinary rest /\
    length (toString2 (Some hi)) = 16%nat /\
    stringToBinary (hi :: lo :: rest) = stringToBinary (hi :: lo' :: rest).
Proof.
  intros hi lo lo' rest Hhi Hlo Hlo'.
  pose proof (length_toString2_high_surrogate hi Hhi) as H16.
  assert (E : forall l, is_low_surrogate l = true ->
                        stringToBinary (hi :: l :: rest)
                        = toString2 (Some hi) ++ stringToBinary rest).
  { intros l Hl. unfold stringToBinary. rewrite Array_from_cons2.
    rewrite Hhi, Hl. cbn [andb map concat]. f_equal.
    unfold charToBinary. cbn [charCodeAt0]. apply padStart_long. lia. }
  split; [exact (E lo Hlo)|]. split; [exact H16|].
  now rewrite (E lo Hlo), (E lo' Hlo').
Qed.

(** X3.  Converting a concatenation converts the two parts, provided the
    second part does not begin with a low surrogate (which would pair up
    with a high surrogate ending the first part). *)
Theorem stringToBinary_app :
  forall s t : jsstring,
    match t with
    | v :: _ => is_low_surrogate v = false
    | [] => True
    end ->
    stringToBinary (s ++ t) = stringToBinary s ++ stringToBinary t.
Proof.
  intros s t Ht. unfold stringToBinary.
  now rewrite (Array_from_app s t Ht), map_app, concat_app.
Qed.

(** X4.  Cutting the output into groups of 8 bits gives the text back
    exactly when every code unit of the text is below 256. *)
Theorem decode_stringToBinary_iff :
  forall T : jsstring,
    decode (stringToBinary T) = T <-> Forall (fun u => (u < 256)%N) T.
Proof.
  intros T. split.
  - intros <-. apply decode_bytes_range.
  - intros H. rewrite (stringToBinary_bytes T H). now apply decode_bytes.
Qed.

(** X5.  The character breakdown shows one item per code unit of the
    name, whatever the name; when the name has no high surrogate, the
    binaries of the items, put end to end, are the binary string
    displayed above them. *)
Theorem charBreakdown_matches_binary :
  forall name : jsstring,
    length (charBreakdown name) = length name /\
    (Forall (fun u => is_high_surrogate u = false) name ->
     concat (map char_binary (charBreakdown name)) = stringToBinary name).
Proof.
  intros name. unfold charBreakdown. rewrite length_map, map_map.
  split; [reflexivity|]. intros H. cbn [char_binary].
  unfold stringToBinary. f_equal.
  induction H as [|u rest Hu Hrest IH]; [reflexivity|].
  destruct rest as [|v rest']; [reflexivity|].
  rewrite Array_from_cons2, Hu. cbn [andb map]. f_equal. exact IH.
Qed.
(* ================================================================= *)
(** * Further properties of the waveform *)

Section WaveformMore.

Variable z : zoom.

(** The whole loop against the table. *)
Lemma waveform_loop_vertices (s : scheme) (binary : jsstring) :
  forall (i : Z) (st : loop_state) (last : level),
    st_lastY st = voltage z last ->
    st_ctx (waveform_loop z (scheme_id s) i binary st)
    = st_ctx st
      ++ map (render z)
           (spec_loop s i binary last (st_amiPolarity st) (st_cmiPolarity st)).
Proof.
  induction binary as [|bit rest IH]; intros i st last Hlast.
  - cbn [waveform_loop spec_loop map]. now rewrite app_nil_r.
  - cbn [waveform_loop spec_loop].
    rewrite (loop_body_rule z s i bit st last Hlast).
    set (r := spec_rule s bit (st_amiPolarity st) (st_cmiPolarity st)).
    match goal with
    | |- st_ctx (waveform_loop _ _ _ _ ?st') = _ =>
        rewrite (IH (i + 1) st' (end_level r) eq_refl)
    end.
    cbn [st_ctx st_amiPolarity st_cmiPolarity].
    now rewrite !map_app, <- !app_assoc.
Qed.

Lemma drawWaveform_vertices (s : scheme) (binary : jsstring) :
  drawWaveform z binary (scheme_id s)
  = map (render z) (spec_vertices s binary).
Proof.
  unfold drawWaveform, spec_vertices.
  now rewrite (waveform_loop_vertices s binary 0 (init_state z) ZERO eq_refl).
Qed.

Lemma map_render_inj (vs ws : list vertex) :
  map (render z) vs = map (render z) ws -> vs = ws.
Proof.
  revert ws; induction vs as [|v vs IH]; intros [|w ws] E;
    try discriminate E; [reflexivity|].
  cbn [map] in E. injection E as Ev Evs.
  apply render_inj in Ev. apply IH in Evs. congruence.
Qed.

End WaveformMore.

Lemma scheme_id_dec (encoding : jsstring) :
  (exists s, encoding = scheme_id s) \/ (forall s, encoding <> scheme_id s).
Proof.
  destruct (str_eqb encoding (scheme_id NRZ)) eqn:E1;
    [left; exists NRZ; now apply str_eqb_eq|].
  destruct (str_eqb encoding (scheme_id RZ)) eqn:E2;
    [left; exists RZ; now apply str_eqb_eq|].
  destruct (str_eqb encoding (scheme_id Manchester)) eqn:E3;
    [left; exists Manchester; now apply str_eqb_eq|].
  destruct (str_eqb encoding (scheme_id AMI)) eqn:E4;
    [left; exists AMI; now apply str_eqb_eq|].
  destruct (str_eqb encoding (scheme_id CMI)) eqn:E5;
    [left; exists CMI; now apply str_eqb_eq|].
  right. intros [] ->.
  - now rewrite (proj2 (str_eqb_eq _ _) eq_refl) in E1.
  - now rewrite (proj2 (str_eqb_eq _ _) eq_refl) in E2.
  - now rewrite (proj2 (str_eqb_eq _ _) eq_refl) in E3.
  - now rewrite (proj2 (str_eqb_eq _ _) eq_refl) in E4.
  - now rewrite (proj2 (str_eqb_eq _ _) eq_refl) in E5.
Qed.

(** Positions and flags of the table's vertices. *)
Lemma spec_loop_positions (s : scheme) (binary : jsstring) :
  forall (i : Z) (last : level) (ami cmi : Z),
    0 <= i ->
    Forall (fun v => i * 2 <= position v
                     <= (i + Z.of_nat (length binary)) * 2)
      (spec_loop s i binary last ami cmi).
Proof.
  induction binary as [|bit rest IH]; intros i last ami cmi Hi;
    cbn [spec_loop]; [constructor|].
  set (r := spec_rule s bit ami cmi).
  rewrite !Forall_app. repeat split.
  - unfold boundary. destruct (Z.eqb_spec i 0) as [->|_];
      [|destruct (level_eqb last (start_level r)), (touches_boundary s)];
      repeat constructor; cbn [position length]; lia.
  - subst r. destruct s; cbn [spec_rule];
      repeat match goal with
             | |- context [if ?c then _ else _] => destruct c
             end;
      cbn [flat_rule split_rule body body_vertices map fst snd];
      repeat constructor; cbn [position length]; lia.
  - eapply Forall_impl; [|apply (IH (i + 1)); lia].
    cbn beta. intros v Hv. cbn [length]. lia.
Qed.

Lemma spec_loop_length (s : scheme) (binary : jsstring) :
  forall (i : Z) (last : level) (ami cmi : Z),
    (length binary <= length (spec_loop s i binary last ami cmi)
     <= 5 * length binary)%nat.
Proof.
  induction binary as [|bit rest IH]; intros i last ami cmi;
    cbn [spec_loop length]; [lia|].
  set (r := spec_rule s bit ami cmi).
  specialize (IH (i + 1) (end_level r) (next_ami r) (next_cmi r)).
  rewrite !length_app.
  assert (Hb : (length (boundary (touches_boundary s) i last (start_level r))
                <= 2)%nat).
  { unfold boundary. destruct (i =? 0);
      [|destruct (level_eqb last (start_level r)), (touches_boundary s)];
      cbn [length]; lia. }
  assert (Hbody : (1 <= length (body_vertices i (body r)) <= 3)%nat).
  { subst r. unfold body_vertices. rewrite length_map.
    destruct s; cbn [spec_rule];
      repeat match goal with
             | |- context [if ?c then _ else _] => destruct c
             end;
      cbn [flat_rule split_rule body length]; lia. }
  lia.
Qed.

(** X6.  The waveform of a recognized scheme stays inside the canvas: each
    point of the path lies between the left padding and the right
    padding, on one of the three dashed voltage lines, above the bottom
    edge. *)
Theorem waveform_inside_canvas :
  forall (z : zoom) (s : scheme) (binary : jsstring) (op : path_op),
    In op (drawWaveform z binary (scheme_id s)) ->
    padding <= op_x op <= canvasWidth z binary - padding /\
    (op_y op = voltageHigh z \/ op_y op = voltageZero z \/
     op_y op = voltageLow z) /\
    0 < op_y op < canvasHeight z.
Proof.
  intros z s binary op Hin.
  rewrite drawWaveform_vertices in Hin.
  apply in_map_iff in Hin as (v & <- & Hv).
  pose proof (spec_loop_positions s binary 0 ZERO 1 (-1) (Z.le_refl 0)) as Hpos.
  rewrite Forall_forall in Hpos. specialize (Hpos v Hv).
  pose proof (bitWidth_eq z) as Hw. pose proof (half_width_pos z) as Hh.
  assert (Hx : op_x (render z v) = padding + position v * (bitWidth z / 2))
    by (unfold render; destruct (startsNewSegment v); reflexivity).
  assert (Hy : op_y (render z v) = voltage z (vlevel v))
    by (unfold render; destruct (startsNewSegment v); reflexivity).
  rewrite Hx, Hy. unfold canvasWidth.
  set (h := bitWidth z / 2) in *. set (n := Z.of_nat (length binary)) in *.
  rewrite Hw. unfold padding. split; [|split].
  - split; [nia|].
    assert (position v * h <= n * (2 * h)) by nia. lia.
  - destruct (vlevel v); cbn [voltage]; auto.
  - destruct z, (vlevel v); vm_compute; split; reflexivity.
Qed.

(** X7.  A recognized scheme draws at least one and at most five path
    points per bit. *)
Theorem waveform_vertex_count :
  forall (z : zoom) (s : scheme) (binary : jsstring),
    (length binary <= length (drawWaveform z binary (scheme_id s))
     <= 5 * length binary)%nat.
Proof.
  intros z s binary. rewrite drawWaveform_vertices, length_map.
  apply spec_loop_length.
Qed.

(** X8.  Zooming rescales the waveform and changes nothing else: the
    vertex list that renders to the path at one zoom renders to the path
    at every other zoom. *)
Theorem waveform_zoom_independent :
  forall (z z' : zoom) (binary encoding : jsstring) (vs : list vertex),
    drawWaveform z binary encoding = map (render z) vs ->
    drawWaveform z' binary encoding = map (render z') vs.
Proof.
  intros z z' binary encoding vs H.
  destruct (scheme_id_dec encoding) as [(s & ->)|Hs].
  - rewrite drawWaveform_vertices in H. apply map_render_inj in H.
    subst vs. apply drawWaveform_vertices.
  - unfold drawWaveform in *.
    rewrite waveform_loop_unrecognized in * by exact Hs.
    cbn [init_state st_ctx] in *. destruct vs; [reflexivity|discriminate H].
Qed.

(** X9.  What is drawn for a bit string stays as it is when further bits
    follow: the path of a longer string begins with the path of each of
    its prefixes, under every scheme identifier. *)
Theorem waveform_prefix_stable :
  forall (z : zoom) (encoding pre post : jsstring),
    exists rest,
      drawWaveform z (pre ++ post) encoding
      = drawWaveform z pre encoding ++ rest.
Proof.
  intros z encoding pre post. unfold drawWaveform.
  rewrite waveform_loop_app. apply waveform_loop_extends.
Qed.

(** X10.  For a non-empty bit string and a recognized scheme the path
    ends at the right edge of the last bit, on the rail [lastY] holds
    when the loop exits. *)
Theorem waveform_ends_at_last_bit :
  forall (z : zoom) (s : scheme) (binary : jsstring),
    binary <> [] ->
    pen (drawWaveform z binary (scheme_id s))
    = Some (padding + Z.of_nat (length binary) * bitWidth z,
            st_lastY (waveform_loop z (scheme_id s) 0 binary (init_state z))).
Proof.
  intros z s binary Hne.
  rewrite state_before_all.
  replace (waveform_loop z (scheme_id s) 0 binary (init_state z))
    with (state_before z (scheme_id s) binary (length binary))
    by (unfold state_before; now rewrite firstn_all).
  destruct (wf_state_before z s binary (length binary) (le_n _))
    as (last & vs & Hlast & Hctx & _ & _ & Hshape).
  destruct (length binary) as [|n] eqn:Hlen.
  - apply length_zero_iff_nil in Hlen. contradiction.
  - destruct Hshape as (_ & front & f & ->).
    rewrite Hctx, Hlast, pen_render_snoc. unfold point.
    cbn [position vlevel]. f_equal. f_equal.
    pose proof (bitWidth_eq z) as Hw.
    set (h := bitWidth z / 2) in *. rewrite Hw. ring.
Qed.

Section Rails.

Lemma boundary_levels (P : level -> Prop) (touch : bool) (i : Z)
  (last start : level) :
  P start -> (i <> 0 -> P last) ->
  Forall (fun v => P (vlevel v)) (boundary touch i last start).
Proof.
  intros Hs Hl. unfold boundary. destruct (Z.eqb_spec i 0) as [E|E].
  - repeat constructor; exact Hs.
  - destruct (level_eqb last start), touch; repeat constructor; auto.
Qed.

(** Levels of the table's vertices: a set of levels that contains the
    level the loop starts from (or is entered at index 0, where that
    level is not drawn) and every level the scheme's rules name contains
    every level drawn. *)
Lemma spec_loop_levels (P : level -> Prop) (s : scheme) :
  (forall bit ami cmi,
      let r := spec_rule s bit ami cmi in
      P (start_level r) /\ P (end_level r) /\
      Forall (fun ol => P (snd ol)) (body r)) ->
  forall (binary : jsstring) (i : Z) (last : level) (ami cmi : Z),
    0 <= i -> (i <> 0 -> P last) ->
    Forall (fun v => P (vlevel v)) (spec_loop s i binary last ami cmi).
Proof.
  intros Hrule. induction binary as [|bit rest IH];
    intros i last ami cmi Hi Hlast; cbn [spec_loop]; [constructor|].
  destruct (Hrule bit ami cmi) as (Hs & He & Hb).
  rewrite !Forall_app. repeat split.
  - now apply boundary_levels.
  - unfold body_vertices. apply Forall_map. exact Hb.
  - apply IH; [lia | intros _; exact He].
Qed.

End Rails.

(** X11.  NRZ-L and CMI never draw on the -V line, and Manchester never
    draws on the 0 line. *)
Theorem unused_rails :
  forall (z : zoom) (binary : jsstring) (op : path_op),
    (In op (drawWaveform z binary (js "nrz")) -> op_y op <> voltageLow z) /\
    (In op (drawWaveform z binary (js "cmi")) -> op_y op <> voltageLow z) /\
    (In op (drawWaveform z binary (js "manchester")) ->
     op_y op <> voltageZero z).
Proof.
  intros z binary op.
  assert (Hy : forall v, op_y (render z v) = voltage z (vlevel v))
    by (intros v; unfold render; destruct (startsNewSegment v); reflexivity).
  assert (Key : forall (s : scheme) (bad : level),
             (forall bit ami cmi,
                 let r := spec_rule s bit ami cmi in
                 start_level r <> bad /\ end_level r <> bad /\
                 Forall (fun ol => snd ol <> bad) (body r)) ->
             In op (drawWaveform z binary (scheme_id s)) ->
             op_y op <> voltage z bad).
  { intros s bad Hrule Hin. rewrite drawWaveform_vertices in Hin.
    apply in_map_iff in Hin as (v & <- & Hv).
    pose proof (spec_loop_levels (fun l => l <> bad) s Hrule binary 0 ZERO 1 (-1)
                  (Z.le_refl 0) (fun H => False_ind _ (H eq_refl))) as Hall.
    rewrite Forall_forall in Hall. specialize (Hall v Hv). cbn beta in Hall.
    rewrite Hy. intros E. now apply voltage_inj in E. }
  split; [|split].
  - apply (Key NRZ LOW). intros bit ami cmi. cbn [spec_rule].
    destruct (N.eqb bit c1); cbn; repeat split; try discriminate;
      repeat constructor; discriminate.
  - apply (Key CMI LOW). intros bit ami cmi. cbn [spec_rule].
    destruct (N.eqb bit c1); [destruct (cmi =? 1)|]; cbn; repeat split;
      try discriminate; repeat constructor; discriminate.
  - apply (Key Manchester ZERO). intros bit ami cmi. cbn [spec_rule].
    destruct (N.eqb bit c1); cbn; repeat split; try discriminate;
      repeat constructor; discriminate.
Qed.

(** X13.  The zoom stays between [MIN_ZOOM] and [MAX_ZOOM] whatever
    buttons are clicked; the values it takes are exactly the seven
    values of [zoom], on which the two handlers act as [zoomIn] and
    [zoomOut]. *)
Theorem zoom_stays_in_range :
  (forall clicks : list zoom_button,
      MIN_ZOOM <= zoom_after clicks <= MAX_ZOOM /\
      exists z : zoom, zoom_after clicks = quarters z) /\
  (forall z : zoom, exists clicks, zoom_after clicks = quarters z) /\
  (forall z : zoom,
      zoomInClick (quarters z) = quarters (zoomIn z) /\
      zoomOutClick (quarters z) = quarters (zoomOut z)).
Proof.
  assert (Step : forall z b, exists z', zoom_click (quarters z) b = quarters z').
  { intros z b. destruct b; [exists (zoomIn z)|exists (zoomOut z)];
      destruct z; reflexivity. }
  assert (Run : forall clicks z,
             exists z', fold_left zoom_click clicks (quarters z) = quarters z').
  { induction clicks as [|b clicks IH]; intros z; cbn [fold_left].
    - now exists z.
    - destruct (Step z b) as [z' ->]. apply IH. }
  split; [|split].
  - intros clicks. destruct (Run clicks Z100) as [z Hz].
    change (quarters Z100) with 4 in Hz. unfold zoom_after. rewrite Hz.
    split; [|now exists z]. unfold MIN_ZOOM, MAX_ZOOM. destruct z; cbn; lia.
  - intros z.
    exists (match z with
            | Z050 => [ZoomOutBtn; ZoomOutBtn]
            | Z075 => [ZoomOutBtn]
            | Z100 => []
            | Z125 => [ZoomInBtn]
            | Z150 => [ZoomInBtn; ZoomInBtn]
            | Z175 => [ZoomInBtn; ZoomInBtn; ZoomInBtn]
            | Z200 => [ZoomInBtn; ZoomInBtn; ZoomInBtn; ZoomInBtn]
            end).
    destruct z; reflexivity.
  - intros z. destruct z; split; reflexivity.
Qed.

Section Markers.

Variable z : zoom.

Lemma mod8_offset (k j : N) : (j < 8)%N -> ((8 * k + j) mod 8 = j)%N.
Proof.
  intros Hj. rewrite N.add_comm, N.mul_comm, N.Div0.mod_add.
  now apply N.mod_small.
Qed.

(** Inside a group of 8 no marker is written. *)
Lemma marker_loop_skip (k : N) (group rest : jsstring) :
  forall j : N,
    (1 <= j)%N -> (j + N.of_nat (length group) <= 8)%N ->
    marker_loop z (8 * k + j) (group ++ rest)
    = marker_loop z (8 * k + j + N.of_nat (length group)) rest.
Proof.
  induction group as [|b group IH]; intros j Hj Hlen.
  - cbn [app length N.of_nat]. now rewrite N.add_0_r.
  - cbn [app marker_loop]. cbn [length] in Hlen.
    rewrite mod8_offset by lia.
    replace (N.eqb j 0) with false by (symmetry; apply N.eqb_neq; lia).
    replace (8 * k + j + 1)%N with (8 * k + (j + 1))%N by lia.
    rewrite IH by lia. f_equal. cbn [length]. lia.
Qed.

Lemma marker_loop_group (k u : N) (rest : jsstring) :
  marker_loop z (8 * k) (byte_bits u ++ rest)
  = {| ft_text := decimal (8 * k);
       ft_x := padding + Z.of_N (8 * k) * bitWidth z + bitWidth z / 2;
       ft_y := canvasHeight z - 15 |}
    :: marker_loop z (8 * (k + 1)) rest.
Proof.
  change (byte_bits u ++ rest) with
    ((if N.testbit u 7 then c1 else c0)
       :: (map (fun i => if N.testbit u i then c1 else c0)
             [6; 5; 4; 3; 2; 1; 0]%N ++ rest)).
  cbn [marker_loop].
  replace (8 * k)%N with (8 * k + 0)%N at 1 by lia.
  rewrite mod8_offset by lia. cbn [N.eqb]. f_equal.
  rewrite (marker_loop_skip k _ rest 1) by (cbn; lia).
  f_equal. cbn [map length]. lia.
Qed.

Lemma marker_loop_bytes (T : jsstring) :
  forall k : nat,
    marker_loop z (8 * N.of_nat k) (concat (map byte_bits T))
    = map (fun c =>
             {| ft_text := decimal (8 * N.of_nat c);
                ft_x := padding + Z.of_N (8 * N.of_nat c) * bitWidth z
                        + bitWidth z / 2;
                ft_y := canvasHeight z - 15 |})
        (seq k (length T)).
Proof.
  induction T as [|u T IH]; intros k; [reflexivity|].
  cbn [map concat length seq]. rewrite marker_loop_group. f_equal.
  replace (N.of_nat k + 1)%N with (N.of_nat (S k)) by lia. apply IH.
Qed.

End Markers.

(** X14.  For a text whose code units are all below 256, the position
    markers under the graph are one per character: the marker of
    character [c] is the decimal numeral of [8*c], the index of the
    character's first bit, written at the middle of that bit, 15 pixels
    above the bottom edge of the canvas. *)
Theorem positionMarkers_per_character :
  forall (z : zoom) (T : jsstring),
    Forall (fun u => (u < 256)%N) T ->
    positionMarkers z (stringToBinary T)
    = map (fun c =>
             {| ft_text := decimal (8 * N.of_nat c);
                ft_x := padding + Z.of_N (8 * N.of_nat c) * bitWidth z
                        + bitWidth z / 2;
                ft_y := canvasHeight z - 15 |})
        (seq 0 (length T)).
Proof.
  intros z T H. unfold positionMarkers.
  rewrite (stringToBinary_bytes T H).
  exact (marker_loop_bytes z T 0).
Qed.

(* ================================================================= *)
(** * Concrete runs of the further properties *)

(** The characters U+1F600 and U+1F601. *)
Lemma stringToBinary_surrogate_pair_witness :
  is_high_surrogate 55357%N = true /\
  is_low_surrogate 56832%N = true /\
  is_low_surrogate 56833%N = true /\
  stringToBinary [55357; 56832]%N
  = toString2 (Some 55357%N) ++ stringToBinary [] /\
  length (toString2 (Some 55357%N)) = 16%nat /\
  stringToBinary [55357; 56832]%N = stringToBinary [55357; 56833]%N.
Proof.
  exact (conj eq_refl (conj eq_refl (conj eq_refl
           (stringToBinary_surrogate_pair 55357%N 56832%N 56833%N []
              eq_refl eq_refl eq_refl)))).
Defined.

Lemma stringToBinary_app_witness :
  is_low_surrogate 105%N = false /\
  stringToBinary (js "H" ++ js "i")
  = stringToBinary (js "H") ++ stringToBinary (js "i").
Proof.
  exact (conj eq_refl (stringToBinary_app (js "H") (js "i") eq_refl)).
Defined.

Lemma decode_stringToBinary_iff_witness :
  Forall (fun u => (u < 256)%N) (js "Hi") /\
  decode (stringToBinary (js "Hi")) = js "Hi".
Proof.
  assert (H : Forall (fun u => (u < 256)%N) (js "Hi"))
    by (repeat apply Forall_cons; try reflexivity; apply Forall_nil).
  exact (conj H (proj2 (decode_stringToBinary_iff (js "Hi")) H)).
Defined.

Lemma charBreakdown_matches_binary_witness :
  Forall (fun u => is_high_surrogate u = false) (js "a b") /\
  length (charBreakdown (js "a b")) = length (js "a b") /\
  concat (map char_binary (charBreakdown (js "a b")))
  = stringToBinary (js "a b").
Proof.
  assert (H : Forall (fun u => is_high_surrogate u = false) (js "a b"))
    by (repeat apply Forall_cons; try reflexivity; apply Forall_nil).
  exact (conj H
           (conj (proj1 (charBreakdown_matches_binary (js "a b")))
                 (proj2 (charBreakdown_matches_binary (js "a b")) H))).
Defined.

Lemma waveform_inside_canvas_witness :
  In (LineTo 120 80) (drawWaveform Z100 (js "1") (scheme_id NRZ)) /\
  padding <= 120 <= canvasWidth Z100 (js "1") - padding /\
  (80 = voltageHigh Z100 \/ 80 = voltageZero Z100 \/ 80 = voltageLow Z100) /\
  0 < 80 < canvasHeight Z100.
Proof.
  assert (H : In (LineTo 120 80) (drawWaveform Z100 (js "1") (scheme_id NRZ)))
    by (right; left; reflexivity).
  exact (conj H (waveform_inside_canvas Z100 NRZ (js "1") (LineTo 120 80) H)).
Defined.

Lemma waveform_zoom_independent_witness :
  drawWaveform Z100 (js "1") (js "nrz")
  = map (render Z100) [V 0 HIGH true; V 2 HIGH false] /\
  drawWaveform Z200 (js "1") (js "nrz")
  = map (render Z200) [V 0 HIGH true; V 2 HIGH false].
Proof.
  exact (conj eq_refl
           (waveform_zoom_independent Z100 Z200 (js "1") (js "nrz")
              [V 0 HIGH true; V 2 HIGH false] eq_refl)).
Defined.

Lemma waveform_ends_at_last_bit_witness :
  js "10" <> [] /\
  pen (drawWaveform Z100 (js "10") (scheme_id RZ))
  = Some (padding + Z.of_nat (length (js "10")) * bitWidth Z100,
          st_lastY (waveform_loop Z100 (scheme_id RZ) 0 (js "10")
                      (init_state Z100))).
Proof.
  assert (Hne : js "10" <> []) by discriminate.
  exact (conj Hne (waveform_ends_at_last_bit Z100 RZ (js "10") Hne)).
Defined.

Lemma unused_rails_witness :
  In (LineTo 120 120) (drawWaveform Z100 (js "0") (js "nrz")) /\
  120 <> voltageLow Z100.
Proof.
  assert (H : In (LineTo 120 120) (drawWaveform Z100 (js "0") (js "nrz")))
    by (right; left; reflexivity).
  exact (conj H (proj1 (unused_rails Z100 (js "0") (LineTo 120 120)) H)).
Defined.

Lemma positionMarkers_per_character_witness :
  Forall (fun u => (u < 256)%N) (js "Hi") /\
  positionMarkers Z100 (stringToBinary (js "Hi"))
  = [{| ft_text := js "0"; ft_x := 100; ft_y := 265 |};
     {| ft_text := js "8"; ft_x := 420; ft_y := 265 |}].
Proof.
  assert (H : Forall (fun u => (u < 256)%N) (js "Hi"))
    by (repeat apply Forall_cons; try reflexivity; apply Forall_nil).
  exact (conj H (positionMarkers_per_character Z100 (js "Hi") H)).
Defined.

Section AxisAligned.

Lemma chain_app (px : Z) (pl : level) (a b : list vertex) :
  chain px pl a ->
  chain (fst (chain_end px pl a)) (snd (chain_end px pl a)) b ->
  chain px pl (a ++ b).
Proof.
  revert px pl; induction a as [|v a IH]; intros px pl Ha Hb; cbn [app].
  - exact Hb.
  - cbn [chain chain_end] in *. destruct Ha as [Hv Ha]. split; [exact Hv|].
    now apply IH.
Qed.

Lemma chain_end_app (px : Z) (pl : level) (a b : list vertex) :
  chain_end px pl (a ++ b)
  = chain_end (fst (chain_end px pl a)) (snd (chain_end px pl a)) b.
Proof.
  revert px pl; induction a as [|v a IH]; intros px pl; cbn [app chain_end].
  - reflexivity.
  - apply IH.
Qed.

(** One bit: from the boundary at level [last], the bit's vertices form a
    chain that ends at the next boundary at the rule's end level. *)
Lemma bit_chain (s : scheme) (i : Z) (bit : code_unit) (last : level)
  (ami cmi : Z) :
  let r := spec_rule s bit ami cmi in
  let vs := boundary (touches_boundary s) i last (start_level r)
            ++ body_vertices i (body r) in
  chain (2 * i) last vs /\
  chain_end (2 * i) last vs = (2 * (i + 1), end_level r).
Proof.
  cbv zeta. unfold boundary.
  destruct (Z.eqb_spec i 0) as [->|Hi];
    destruct s; cbn [spec_rule touches_boundary];
    repeat match goal with
           | |- context [if N.eqb ?a ?b then _ else _] => destruct (N.eqb a b)
           | |- context [if Z.eqb ?a ?b then _ else _] => destruct (Z.eqb a b)
           end;
    cbn [flat_rule split_rule start_level body end_level body_vertices
         map fst snd];
    destruct last; cbn [level_eqb app chain chain_end position vlevel];
    (split; [repeat split; first [left; lia | right; reflexivity]
            | f_equal; lia]).
Qed.

Lemma spec_loop_chain (s : scheme) (binary : jsstring) :
  forall (i : Z) (last : level) (ami cmi : Z),
    chain (2 * i) last (spec_loop s i binary last ami cmi).
Proof.
  induction binary as [|bit rest IH]; intros i last ami cmi;
    cbn [spec_loop]; [exact I|].
  destruct (bit_chain s i bit last ami cmi) as [Hc He].
  rewrite app_assoc. apply chain_app; [exact Hc|].
  rewrite He. cbn [fst snd]. apply IH.
Qed.

Lemma chain_consecutive (vs : list vertex) :
  forall (px : Z) (pl : level) (pre : list vertex) (p q : vertex)
         (post : list vertex),
    chain px pl vs ->
    vs = pre ++ p :: q :: post ->
    position p = position q \/ vlevel p = vlevel q.
Proof.
  induction vs as [|v vs IH]; intros px pl pre p q post Hc E.
  - now destruct pre.
  - destruct pre as [|w pre]; cbn [app] in E; injection E as -> ->.
    + cbn [chain] in Hc. tauto.
    + cbn [chain] in Hc. destruct Hc as [_ Hc].
      exact (IH _ _ pre p q post Hc eq_refl).
Qed.

End AxisAligned.

(** X15.  The waveform of a recognized scheme is made of horizontal and
    vertical segments only: two consecutive points of the path always
    share their x or their y. *)
Theorem waveform_axis_aligned :
  forall (z : zoom) (s : scheme) (binary : jsstring)
         (pre : context) (p q : path_op) (post : context),
    drawWaveform z binary (scheme_id s) = pre ++ p :: q :: post ->
    op_x p = op_x q \/ op_y p = op_y q.
Proof.
  intros z s binary pre p q post E.
  rewrite drawWaveform_vertices in E.
  apply map_eq_app in E as (vpre & vtail & Evs & <- & Etail).
  destruct vtail as [|vp [|vq vpost]]; try discriminate Etail.
  cbn [map] in Etail. injection Etail as <- <- _.
  pose proof (spec_loop_chain s binary 0 ZERO 1 (-1)) as Hc.
  destruct (chain_consecutive _ _ _ vpre vp vq vpost Hc Evs) as [H|H];
    [left|right]; unfold render;
    destruct (startsNewSegment vp), (startsNewSegment vq);
    cbn [op_x op_y]; now rewrite H.
Qed.

Lemma waveform_axis_aligned_witness :
  drawWaveform Z100 (js "1") (scheme_id Manchester)
  = [MoveTo 80 160] ++ LineTo 100 160 :: LineTo 100 80 :: [LineTo 120 80] /\
  (op_x (LineTo 100 160) = op_x (LineTo 100 80) \/
   op_y (LineTo 100 160) = op_y (LineTo 100 80)).
Proof.
  exact (conj eq_refl
           (waveform_axis_aligned Z100 Manchester (js "1")
              [MoveTo 80 160] (LineTo 100 160) (LineTo 100 80) [LineTo 120 80]
              eq_refl)).
Defined.

Section Strokes.

Variable z : zoom.

Lemma strokes_from_app (p : Z * Z) (a b : context) :
  strokes_from p (a ++ b)
  = strokes_from p a ++ strokes_from (path_end p a) b.
Proof.
  revert p; induction a as [|op a IH]; intros p; cbn [app]; [reflexivity|].
  destruct op as [x y|x y]; cbn [strokes_from path_end]; rewrite IH;
    reflexivity.
Qed.

Lemma vstrokes_from_app (px : Z) (pl : level) (a b : list vertex) :
  vstrokes_from px pl (a ++ b)
  = vstrokes_from px pl a
    ++ vstrokes_from (fst (chain_end px pl a)) (snd (chain_end px pl a)) b.
Proof.
  revert px pl; induction a as [|v a IH]; intros px pl; cbn [app];
    [reflexivity|].
  cbn [vstrokes_from chain_end]. destruct (startsNewSegment v); rewrite IH;
    reflexivity.
Qed.

(** A stroke between two rendered points holds a rail over one bit
    width exactly when the two vertices are at that level, two half bit
    widths apart. *)
Lemma holds_rail_point (t : level) (p1 p2 : Z) (l1 l2 : level) :
  holds_rail z (voltage z t) (point z p1 l1, point z p2 l2)
  = vholds t ((p1, l1), (p2, l2)).
Proof.
  unfold holds_rail, vholds, point. cbn [fst snd].
  rewrite !voltage_eqb. f_equal.
  pose proof (bitWidth_eq z) as Hw. pose proof (half_width_pos z) as Hh.
  set (h := bitWidth z / 2) in *. rewrite Hw.
  destruct (Z.eqb_spec (padding + p2 * h) (padding + p1 * h + 2 * h)) as [E|E];
    destruct (Z.eqb_spec p2 (p1 + 2)) as [E'|E']; try reflexivity.
  - exfalso. apply E'. apply (Z.mul_reg_r _ _ h); lia.
  - exfalso. apply E. subst p2. ring.
Qed.

Lemma count_rendered_strokes (t : level) (vs : list vertex) :
  forall (px : Z) (pl : level),
    length (filter (holds_rail z (voltage z t))
              (strokes_from (point z px pl) (map (render z) vs)))
    = length (filter (vholds t) (vstrokes_from px pl vs)).
Proof.
  induction vs as [|v vs IH]; intros px pl; [reflexivity|].
  cbn [map vstrokes_from]. unfold render at 1.
  destruct (startsNewSegment v); cbn [strokes_from].
  - apply (IH (position v) (vlevel v)).
  - change (padding + position v * (bitWidth z / 2), voltage z (vlevel v))
      with (point z (position v) (vlevel v)).
    cbn [filter]. rewrite (holds_rail_point t px (position v) pl (vlevel v)).
    destruct (vholds t ((px, pl), (position v, vlevel v))); cbn [length];
      [f_equal|]; apply (IH (position v) (vlevel v)).
Qed.

(** A path that starts with [moveTo] has the strokes counted from any
    point. *)
Lemma strokes_rendered (s : scheme) (binary : jsstring) (p : Z * Z) :
  strokes (map (render z) (spec_vertices s binary))
  = strokes_from p (map (render z) (spec_vertices s binary)).
Proof.
  unfold spec_vertices. destruct binary as [|bit rest]; [reflexivity|].
  cbn [spec_loop]. unfold boundary at 1. cbn [Z.eqb app map].
  reflexivity.
Qed.

End Strokes.

Lemma vholds_same_position (t : level) (p : Z) (a b : level) :
  vholds t ((p, a), (p, b)) = false.
Proof.
  unfold vholds. cbn [fst snd].
  replace (p =? p + 2) with false by (symmetry; apply Z.eqb_neq; lia).
  apply andb_false_r.
Qed.

Lemma vholds_run (t : level) (p : Z) (l : level) :
  vholds t ((p, l), (p + 2, l)) = level_eqb l t.
Proof.
  unfold vholds. cbn [fst snd]. now rewrite Z.eqb_refl, andb_true_r, andb_diag.
Qed.

(** One AMI bit: exactly one stroke holds a rail over the bit, the rail
    of the bit's level. *)
Lemma ami_bit_strokes (t : level) (i : Z) (last l : level) :
  length (filter (vholds t)
            (vstrokes_from (2 * i) last
               (boundary true i last l ++ body_vertices i [(2, l)])))
  = if level_eqb l t then 1%nat else 0%nat.
Proof.
  unfold boundary, body_vertices. cbn [map fst snd].
  destruct (Z.eqb_spec i 0) as [->|Hi].
  - cbn [app vstrokes_from startsNewSegment position vlevel filter].
    change (2 * 0 + 2) with (0 + 2). rewrite vholds_run.
    destruct (level_eqb l t); reflexivity.
  - destruct (level_eqb last l) eqn:El.
    + apply level_eqb_eq in El. subst last.
      cbn [app vstrokes_from startsNewSegment position vlevel filter].
      rewrite vholds_same_position, vholds_run.
      destruct (level_eqb l t); reflexivity.
    + cbn [app vstrokes_from startsNewSegment position vlevel filter].
      rewrite !vholds_same_position, vholds_run.
      destruct (level_eqb l t); reflexivity.
Qed.

(** The strokes of the AMI vertices from index [i] on: with polarity +1
    the +V bits equal the -V bits or exceed them by one, with polarity
    -1 the other way round; the 0V bits are the '0' characters; every
    bit is counted once. *)
Lemma ami_spec_loop_balance (binary : jsstring) :
  forall (i : Z) (last : level) (ami cmi : Z),
    let held t :=
      length (filter (vholds t)
                (vstrokes_from (2 * i) last
                   (spec_loop AMI i binary last ami cmi))) in
    (ami = 1 -> held HIGH = held LOW \/ held HIGH = S (held LOW)) /\
    (ami = -1 -> held LOW = held HIGH \/ held LOW = S (held HIGH)) /\
    held ZERO = count_occ N.eq_dec binary c0 /\
    (held HIGH + held LOW + held ZERO = length binary)%nat.
Proof.
  induction binary as [|bit rest IH]; intros i last ami cmi held.
  - subst held. cbn. repeat split; auto.
  - assert (Step : forall t,
               held t
               = ((if level_eqb (start_level (spec_rule AMI bit ami cmi)) t
                   then 1 else 0)
                  + length (filter (vholds t)
                              (vstrokes_from (2 * (i + 1))
                                 (end_level (spec_rule AMI bit ami cmi))
                                 (spec_loop AMI (i + 1) rest
                                    (end_level (spec_rule AMI bit ami cmi))
                                    (next_ami (spec_rule AMI bit ami cmi))
                                    (next_cmi (spec_rule AMI bit ami cmi))))))%nat).
    { intros t. subst held. cbv beta. cbn [spec_loop].
      rewrite app_assoc, vstrokes_from_app, filter_app, length_app.
      destruct (bit_chain AMI i bit last ami cmi) as [_ He].
      cbv zeta in He. rewrite He. cbn [fst snd]. f_equal.
      cbn [spec_rule touches_boundary].
      destruct (N.eqb bit c0); [|destruct (ami =? 1)];
        cbn [flat_rule start_level body]; apply ami_bit_strokes. }
    specialize (IH (i + 1) (end_level (spec_rule AMI bit ami cmi))
                  (next_ami (spec_rule AMI bit ami cmi))
                  (next_cmi (spec_rule AMI bit ami cmi))).
    cbv zeta in IH. destruct IH as (IH1 & IHm1 & IH0 & IHsum).
    rewrite !Step. clear Step. revert IH1 IHm1 IH0 IHsum.
    cbn [spec_rule count_occ length].
    destruct (N.eq_dec bit c0) as [E|E].
    + subst bit. cbn [N.eqb Pos.eqb c0 flat_rule start_level end_level
                      next_ami next_cmi level_eqb].
      intros IH1 IHm1 IH0 IHsum. repeat split; intros; lia.
    + replace (N.eqb bit c0) with false
        by (symmetry; now apply N.eqb_neq).
      destruct (Z.eqb_spec ami 1) as [Ea|Ea];
        cbn [flat_rule start_level end_level next_ami next_cmi level_eqb];
        intros IH1 IHm1 IH0 IHsum; repeat split; intros; lia.
Qed.

(** X12.  AMI keeps the signal balanced.  Count, in the path drawn for a
    bit string, the strokes that stay on one voltage line over a full
    bit width: every bit gives exactly one, on the 0V line exactly for
    the '0' characters, and the strokes on the +V line are as many as
    those on the -V line, or one more. *)
Theorem ami_pulses_balanced :
  forall (z : zoom) (binary : jsstring),
    let path := drawWaveform z binary (js "ami") in
    let highs := bits_held_at z (voltageHigh z) path in
    let lows := bits_held_at z (voltageLow z) path in
    let zeros := bits_held_at z (voltageZero z) path in
    (highs = lows \/ highs = S lows) /\
    zeros = count_occ N.eq_dec binary c0 /\
    (highs + lows + zeros = length binary)%nat.
Proof.
  intros z binary. cbv zeta.
  change (js "ami") with (scheme_id AMI).
  rewrite drawWaveform_vertices. unfold bits_held_at.
  rewrite (strokes_rendered z AMI binary (point z (2 * 0) ZERO)).
  change (voltageHigh z) with (voltage z HIGH).
  change (voltageLow z) with (voltage z LOW).
  change (voltageZero z) with (voltage z ZERO).
  unfold spec_vertices. rewrite !count_rendered_strokes.
  destruct (ami_spec_loop_balance binary 0 ZERO 1 (-1)) as (H1 & _ & H0 & Hs).
  specialize (H1 eq_refl). repeat split; assumption.
Qed.
